(** * app-js: the App namespace, its path store and its deferred initializer

    A shallow embedding of the core of the App script (the path accessor
    [_getOrSet], the constructor/dispatcher [App], [ready], [get], [set],
    [each], [isArray], [now]) together with the small part of the host
    (objects with prototype chains, the document ready state, listeners and
    timers) that these functions touch.

    Modelling conventions.
    - JavaScript values are [val]; objects and functions live in a heap
      indexed by locations.  Objects are ordinary extensible objects with
      data properties; every object records its prototype chain (nearest
      first), which the script never reassigns.
    - Strings are sequences of ASCII characters; numbers are integers or NaN
      (they are only used as time stamps and as opaque stored values).
    - Code that can throw returns [Throw]; the state reached before the
      throw is kept, as in JavaScript.
    - Method calls on [self] ([self.now], [self.ready], [self.each],
      [self.constructor]) are resolved to the functions of [App.prototype].
    - Functions supplied by callers are opaque: invoking one is recorded in
      the trace as [ECall]. *)

From Stdlib Require Import ZArith String Ascii List Bool Lia.
From stdpp Require Import base option gmap strings list fin_maps pretty.

Open Scope string_scope.

(** ** Values, objects, heap *)

Definition loc := positive.

Inductive val : Type :=
| VUndef
| VNull
| VBool (b : bool)
| VNum (n : Z)
| VNaN
| VStr (s : string)
| VObj (l : loc).

#[global] Instance val_eq_dec : EqDecision val.
Proof. solve_decision. Defined.

(** An object: its prototype chain (nearest first), its own properties and
    whether it can be called ([typeof] gives ['function']). *)
Record obj : Type := Obj {
  protos : list loc;
  props : gmap string val;
  callable : bool
}.

(** A call record or an argument list. *)
Definition arglist := list val.

(** What [isArray] can tell about a value handed to [each]. *)
Inductive collection : Type :=
| NotArray
| JsArray (items : list arglist).

(** The placeholder global as the constructor sees it: its [time] and its
    [queue] members. *)
Record loader : Type := Loader {
  l_time : val;
  l_queue : collection
}.

(** Closures created by the script for [ready]: the handler is either a
    value supplied by the caller or the internal handler of [App] closed
    over [self]. *)
Inductive handler : Type :=
| HVal (v : val)
| HInit (self : loc).

Inductive listener : Type :=
| OnDOMContentLoaded (h : handler) (thisArgs : arglist)
| OnReadyStateChange (h : handler) (thisArgs : arglist).

Inductive ready_state : Type := Loading | Interactive | Complete.

Inductive event : Type :=
| EInfo (msg : string) (ms : val)
| ECall (f : loc) (args : arglist).

Inductive err : Type :=
| TypeError (msg : string).

Record state : Type := State {
  heap : gmap loc obj;
  object_proto : loc;                  (* Object.prototype *)
  app_proto : loc;                     (* App.prototype *)
  app_loader_var : val;              (* the global APP_LOADER_VAR *)
  window : gmap string loader;         (* placeholder objects by global name *)
  readyState : ready_state;            (* document.readyState *)
  has_addEventListener : bool;         (* document.addEventListener is defined *)
  listeners : list listener;
  timers : list (handler * arglist);   (* pending setTimeout(.., 1) callbacks *)
  clock : Z;                           (* what new Date().getTime() reads *)
  trace : list event
}.

Definition with_heap (h : gmap loc obj) (s : state) : state :=
  State h (object_proto s) (app_proto s) (app_loader_var s) (window s)
        (readyState s) (has_addEventListener s) (listeners s) (timers s)
        (clock s) (trace s).

Definition with_listeners (ls : list listener) (s : state) : state :=
  State (heap s) (object_proto s) (app_proto s) (app_loader_var s) (window s)
        (readyState s) (has_addEventListener s) ls (timers s)
        (clock s) (trace s).

Definition with_timers (ts : list (handler * arglist)) (s : state) : state :=
  State (heap s) (object_proto s) (app_proto s) (app_loader_var s) (window s)
        (readyState s) (has_addEventListener s) (listeners s) ts
        (clock s) (trace s).

Definition with_trace (tr : list event) (s : state) : state :=
  State (heap s) (object_proto s) (app_proto s) (app_loader_var s) (window s)
        (readyState s) (has_addEventListener s) (listeners s) (timers s)
        (clock s) tr.

Definition with_readyState (r : ready_state) (s : state) : state :=
  State (heap s) (object_proto s) (app_proto s) (app_loader_var s) (window s)
        r (has_addEventListener s) (listeners s) (timers s)
        (clock s) (trace s).

(** ** Computations: state passing with exceptions *)

Inductive res (A : Type) : Type :=
| Ok (a : A)
| Throw (e : err)
| OutOfFuel.

Arguments Ok {A} a.
Arguments Throw {A} e.
Arguments OutOfFuel {A}.

Definition M (A : Type) : Type := state -> res A * state.

Definition ret {A} (a : A) : M A := fun s => (Ok a, s).

Definition bind {A B} (m : M A) (f : A -> M B) : M B :=
  fun s =>
    match m s with
    | (Ok a, s') => f a s'
    | (Throw e, s') => (Throw e, s')
    | (OutOfFuel, s') => (OutOfFuel, s')
    end.

Definition throw {A} (e : err) : M A := fun s => (Throw e, s).

Declare Scope js_scope.
Delimit Scope js_scope with js.
Notation "'let*' x := m 'in' k" := (bind m (fun x => k))
  (at level 10, x name, m at level 100, k at level 200) : js_scope.
Notation "m ;; k" := (bind m (fun _ => k))
  (at level 100, k at level 200, right associativity) : js_scope.
Open Scope js_scope.

(** ** Property access *)

Section Properties.
Variable h : gmap loc obj.

Definition own_prop (l : loc) (k : string) : option val :=
  match h !! l with
  | Some o => props o !! k
  | None => None
  end.

(** The object itself followed by its prototypes. *)
Definition chain (l : loc) : list loc :=
  l :: match h !! l with Some o => protos o | None => [] end.

Fixpoint find_in (ls : list loc) (k : string) : option val :=
  match ls with
  | [] => None
  | l :: ls' =>
      match own_prop l k with
      | Some v => Some v
      | None => find_in ls' k
      end
  end.

(** [k in o] for an object [o]. *)
Definition has_property (l : loc) (k : string) : bool :=
  match find_in (chain l) k with Some _ => true | None => false end.

(** [o[k]] for an object [o]. *)
Definition get_prop (l : loc) (k : string) : val :=
  match find_in (chain l) k with Some v => v | None => VUndef end.

(** [o[k] = v]: creates or overwrites the own data property. *)
Definition put_prop (l : loc) (k : string) (v : val) : gmap loc obj :=
  match h !! l with
  | Some o => <[l := Obj (protos o) (<[k := v]> (props o)) (callable o)]> h
  | None => h
  end.

Definition is_callable (v : val) : bool :=
  match v with
  | VObj l => match h !! l with Some o => callable o | None => false end
  | _ => false
  end.
End Properties.

(** The right operand of [in] must be an object: a TypeError otherwise. *)
Definition in_operand (object : val) : M loc :=
  fun s =>
    match object with
    | VObj l => (Ok l, s)
    | _ => (Throw (TypeError "right-hand side of 'in' is not an object"), s)
    end.

Definition js_has (l : loc) (key : string) : M bool :=
  fun s => (Ok (has_property (heap s) l key), s).

Definition js_get (l : loc) (key : string) : M val :=
  fun s => (Ok (get_prop (heap s) l key), s).

Definition js_put (l : loc) (key : string) (v : val) : M unit :=
  fun s => (Ok tt, with_heap (put_prop (heap s) l key v) s).

(** The object literal [{}]. *)
Definition new_object : M val :=
  fun s =>
    let l := fresh (dom (heap s)) in
    (Ok (VObj l),
     with_heap (<[l := Obj (chain (heap s) (object_proto s)) ∅ false]> (heap s)) s).

(** ** Strings: the regular expressions and string methods the script uses *)

(** The class [\w]. *)
Definition is_word (c : ascii) : bool :=
  let n := nat_of_ascii c in
  ((48 <=? n)%nat && (n <=? 57)%nat) || ((65 <=? n)%nat && (n <=? 90)%nat)
  || ((97 <=? n)%nat && (n <=? 122)%nat) || (n =? 95)%nat.

(** The longest run of word characters at the start of a string, and what
    follows it. *)
Fixpoint span_word (s : string) : string * string :=
  match s with
  | String c s' =>
      if is_word c
      then let (w, r) := span_word s' in (String c w, r)
      else (EmptyString, s)
  | EmptyString => (EmptyString, EmptyString)
  end.

(** A match of [/\[(\w+)]/] at the start of a string: the captured token. *)
Definition match_bracket (s : string) : option string :=
  match s with
  | String c0 s' =>
      if Ascii.eqb c0 "["%char then
        match span_word s' with
        | (String c w, String c1 _) =>
            if Ascii.eqb c1 "]"%char then Some (String c w) else None
        | _ => None
        end
      else None
  | EmptyString => None
  end.

(** [path.replace(/\[(\w+)]/g, '.$1')]: scan from the left; at a match emit
    a dot and the token and skip the matched text ([skip] counts what is
    left of it). *)
Fixpoint replace_from (skip : nat) (s : string) : string :=
  match s with
  | EmptyString => EmptyString
  | String c s' =>
      match skip with
      | S k => replace_from k s'
      | O =>
          match match_bracket s with
          | Some tok => "." ++ tok ++ replace_from (S (String.length tok)) s'
          | None => String c (replace_from 0 s')
          end
      end
  end.

Definition replace_brackets (path : string) : string := replace_from 0 path.

(** [path.replace(/^\./, '')]. *)
Definition strip_leading_dot (path : string) : string :=
  match path with
  | String c r => if Ascii.eqb c "."%char then r else path
  | EmptyString => path
  end.

(** [path.split('.')]. *)
Fixpoint split_dot (path : string) : list string :=
  match path with
  | EmptyString => [EmptyString]
  | String c r =>
      if Ascii.eqb c "."%char then EmptyString :: split_dot r
      else match split_dot r with
           | x :: xs => String c x :: xs
           | [] => [String c EmptyString]
           end
  end.

Definition lower_char (c : ascii) : ascii :=
  let n := nat_of_ascii c in
  if ((65 <=? n)%nat && (n <=? 90)%nat) then ascii_of_nat (n + 32) else c.

(** [path.toLowerCase()]. *)
Fixpoint toLowerCase (s : string) : string :=
  match s with
  | EmptyString => EmptyString
  | String c r => String (lower_char c) (toLowerCase r)
  end.

(** ** The path accessor *)

(** A path argument: a raw string or a pre-split sequence of keys. *)
Inductive jspath : Type :=
| PathStr (s : string)
| PathSeq (keys : list string).

(** Lines 56-64: a string path is normalized and split. *)
Definition path_keys (path : jspath) : list string :=
  match path with
  | PathStr p => split_dot (strip_leading_dot (replace_brackets p))
  | PathSeq keys => keys
  end.

(** Lines 66-85: the loop over the keys.  [rest = []] is [(i + 1) === n]. *)
Fixpoint walk (object : val) (keys : list string) (value : val)
  (create : bool) : M val :=
  match keys with
  | [] => ret object
  | key :: rest =>
      let* o := in_operand object in
      let* found := js_has o key in
      let* exists_ :=
        (if negb found && create
         then (let* v := (match rest with [] => ret value | _ => new_object end) in
               js_put o key v ;; ret true)
         else ret found) in
      if exists_
      then (let* object' := js_get o key in walk object' rest value create)
      else ret value
  end.

(** [_getOrSet(object, path, value, create)]; [create] is true when the
    fourth argument is strictly [true]. *)
Definition _getOrSet (object : val) (path : jspath) (value : val)
  (create : bool) : M val :=
  walk object (path_keys path) value create.

(** [App.prototype.get] and [App.prototype.set] (lines 209-218). *)
Definition get (this : val) (path : jspath) (defaultValue : val) : M val :=
  _getOrSet this path defaultValue false.

Definition set (this : val) (path : jspath) (value : val) : M val :=
  _getOrSet this path value true.


(** ** The host: clock, console, document *)

(** [App.prototype.now]: [new Date().getTime()]. *)
Definition now : M val := fun s => (Ok (VNum (clock s)), s).

(** [console.info(msg, ms, 'ms')]. *)
Definition console_info (msg : string) (ms : val) : M unit :=
  fun s => (Ok tt, with_trace (trace s ++ [EInfo msg ms]) s).

(** ToNumber on the values that can be time stamps; strings and objects are
    taken to NaN (their conversion is not modelled). *)
Definition to_number (v : val) : option Z :=
  match v with
  | VNum n => Some n
  | VNull => Some 0%Z
  | VBool b => Some (if b then 1%Z else 0%Z)
  | _ => None
  end.

(** The binary [-]. *)
Definition js_sub (a b : val) : val :=
  match to_number a, to_number b with
  | Some x, Some y => VNum (x - y)
  | _, _ => VNaN
  end.

Definition js_typeof (v : val) : M string :=
  fun s =>
    (Ok (match v with
         | VUndef => "undefined"
         | VNull => "object"
         | VBool _ => "boolean"
         | VNum _ | VNaN => "number"
         | VStr _ => "string"
         | VObj _ => if is_callable (heap s) v then "function" else "object"
         end), s).

(** [window[typeof APP_LOADER_VAR === 'string' ? APP_LOADER_VAR : 'app']];
    [None] is [undefined]. *)
Definition loader_name (s : state) : string :=
  match app_loader_var s with
  | VStr name => name
  | _ => "app"
  end.

Definition window_loader : M (option loader) :=
  fun s => (Ok (window s !! loader_name s), s).

(** [loader.time] and [loader.queue]: reading a member of [undefined]
    throws. *)
Definition loader_time (ld : option loader) : M val :=
  match ld with
  | Some l => ret (l_time l)
  | None => throw (TypeError "cannot read property 'time' of undefined")
  end.

Definition loader_queue (ld : option loader) : M collection :=
  match ld with
  | Some l => ret (l_queue l)
  | None => throw (TypeError "cannot read property 'queue' of undefined")
  end.

(** [setTimeout(function () { handler.apply(undefined, thisArgs); }, 1)]. *)
Definition setTimeout (h : handler) (thisArgs : arglist) : M unit :=
  fun s => (Ok tt, with_timers (timers s ++ [(h, thisArgs)]) s).

Definition addListener (l : listener) : M unit :=
  fun s => (Ok tt, with_listeners (listeners s ++ [l]) s).

(** ** [App.prototype.ready] (lines 179-204) *)

Definition readyFn (h : handler) (thisArgs : arglist) : M unit :=
  setTimeout h thisArgs.

Definition ready (h : handler) (thisArgs : arglist) : M val :=
  (fun s =>
     match readyState s with
     | Loading =>
         if has_addEventListener s
         then addListener (OnDOMContentLoaded h thisArgs) s
         else addListener (OnReadyStateChange h thisArgs) s
     | _ => readyFn h thisArgs s
     end) ;;
  ret VUndef.

(** ** [App.prototype.isArray] and [App.prototype.each] (lines 255-263, 369) *)

Definition isArray (c : collection) : bool :=
  match c with
  | JsArray _ => true
  | NotArray => false
  end.

Fixpoint each_from (i : nat) (items : list arglist)
  (iteratee : arglist -> nat -> M val) : M unit :=
  match items with
  | [] => ret tt
  | item :: rest => iteratee item i ;; each_from (S i) rest iteratee
  end.

Definition each (c : collection) (iteratee : arglist -> nat -> M val) : M unit :=
  if negb (isArray c) then ret tt
  else match c with
       | JsArray items => each_from 0 items iteratee
       | NotArray => ret tt
       end.

(** ** The constructor and dispatcher [App] (lines 96-135) *)

(** The [switch] on [typeof path]. *)
Definition dispatch (self : loc) (arguments : arglist) : M val :=
  let path := nth 0 arguments VUndef in
  let value := nth 1 arguments VUndef in
  let* ty := js_typeof path in
  if String.eqb ty "string" then
    let isSetter := negb (bool_decide (value = VUndef)) in
    let* data := js_get self "data" in
    _getOrSet data
      (PathStr (match path with VStr p => toLowerCase p | _ => EmptyString end))
      (if isSetter then value else VUndef) isSetter
  else if String.eqb ty "function" then
    ready (HVal path) (tl arguments)
  else js_get self "domready".

(** The body of [App], with the call [self.constructor.apply(self, item)]
    of the replay loop left open as [recur]. *)
Definition App_with (recur : loc -> arglist -> M val) (self : loc)
  (arguments : arglist) : M val :=
  let* ld := window_loader in
  let* appready := js_get self "appready" in
  (if bool_decide (appready = VBool false) then
     let* t := now in
     js_put self "time" t ;;
     js_put self "appready" (VBool true) ;;
     let* t0 := js_get self "time" in
     let* lt := loader_time ld in
     console_info "App: Ready and waiting for DOM..." (js_sub t0 lt) ;;
     ready (HInit self) [] ;;
     let* queue := loader_queue ld in
     each queue (fun item _ => recur self item)
   else ret tt) ;;
  dispatch self arguments.

(** [App] called on [self]; [depth] bounds the nesting of constructor calls
    made from the replay loop. *)
Fixpoint App (depth : nat) (self : loc) (arguments : arglist) : M val :=
  match depth with
  | O => fun s => (OutOfFuel, s)
  | S d => App_with (App d) self arguments
  end.

(** [new App(...arguments)]: a fresh object whose prototype is
    [App.prototype]; the result of the body replaces it when it is an
    object. *)
Definition new_App (depth : nat) (arguments : arglist) : M val :=
  let* self := (fun s =>
                  let l := fresh (dom (heap s)) in
                  (Ok l, with_heap (<[l := Obj (chain (heap s) (app_proto s)) ∅ false]>
                                      (heap s)) s)) in
  let* r := App depth self arguments in
  ret (match r with VObj _ => r | _ => VObj self end).

(** ** The host's event loop *)

(** [handler.apply(undefined, thisArgs)]. *)
Definition run_handler (h : handler) (thisArgs : arglist) : M val :=
  match h with
  | HInit self =>
      js_put self "domready" (VBool true) ;;
      let* t := now in
      let* t0 := js_get self "time" in
      console_info "App: Hurray, DOM is ready... " (js_sub t t0) ;;
      ret VUndef
  | HVal v =>
      fun s =>
        match v with
        | VObj f =>
            if is_callable (heap s) v
            then (Ok VUndef, with_trace (trace s ++ [ECall f thisArgs]) s)
            else (Throw (TypeError "handler.apply is not a function"), s)
        | _ => (Throw (TypeError "handler.apply is not a function"), s)
        end
  end.

(** The pending timers fire, each in its own task, in the order they were
    set; an exception ends its task only. *)
Fixpoint run_tasks (ts : list (handler * arglist)) (s : state) : state :=
  match ts with
  | [] => s
  | (h, a) :: rest => run_tasks rest (snd (run_handler h a s))
  end.

Definition run_timers (s : state) : state :=
  run_tasks (timers s) (with_timers [] s).

(** The document fires [DOMContentLoaded] (once, entering the interactive
    state). *)
Fixpoint notify_loaded (ls : list listener) (s : state) : state :=
  match ls with
  | [] => s
  | OnDOMContentLoaded h a :: rest => notify_loaded rest (snd (readyFn h a s))
  | OnReadyStateChange _ _ :: rest => notify_loaded rest s
  end.

Definition fire_DOMContentLoaded (s : state) : state :=
  let s' := with_readyState Interactive s in
  notify_loaded (listeners s') s'.

(** The document changes its ready state and fires [onreadystatechange]. *)
Fixpoint notify_change (ls : list listener) (s : state) : state :=
  match ls with
  | [] => s
  | OnReadyStateChange h a :: rest =>
      notify_change rest
        (match readyState s with
         | Loading => s
         | _ => snd (readyFn h a s)
         end)
  | OnDOMContentLoaded _ _ :: rest => notify_change rest s
  end.

Definition fire_readystatechange (r : ready_state) (s : state) : state :=
  let s' := with_readyState r s in
  notify_change (listeners s') s'.

(** ** The state after the script has been loaded *)

Module Boot.
Definition ObjectPrototype : loc := 1%positive.
Definition FunctionPrototype : loc := 2%positive.
Definition AppFunction : loc := 3%positive.
Definition AppPrototype : loc := 4%positive.
Definition Data : loc := 5%positive.

(** Function-valued members, each a function object of its own. *)
Definition object_natives : list string :=
  ["constructor"; "toString"; "toLocaleString"; "valueOf"; "hasOwnProperty";
   "isPrototypeOf"; "propertyIsEnumerable"; "__defineGetter__";
   "__defineSetter__"; "__lookupGetter__"; "__lookupSetter__"].

Definition function_natives : list string :=
  ["apply"; "bind"; "call"].

Definition app_methods : list string :=
  ["error"; "ready"; "get"; "set"; "proxy"; "each"; "forEach"; "deepExtend";
   "extend"; "indexOf"; "isArray"; "map"; "now"; "parseHtml"; "parseJson";
   "parseCamelCase"; "trim"; "type"; "isUndefined"; "protect"; "getUID";
   "noop"; "falsy"; "truthy"].

Definition function_object (name : string) : obj :=
  Obj [FunctionPrototype; ObjectPrototype]
      (<["name" := VStr name]> (<["length" := VNum 0]> ∅)) true.

(** Allocates one function object per name from location [base] on and
    returns the members naming them. *)
Fixpoint natives (base : loc) (names : list string)
  (h : gmap loc obj) (members : gmap string val) : gmap loc obj * gmap string val :=
  match names with
  | [] => (h, members)
  | n :: rest =>
      natives (Pos.succ base) rest
        (<[base := function_object n]> h) (<[n := VObj base]> members)
  end.

Definition heap0 (debug : bool) (rs : ready_state) (ie : val) : gmap loc obj :=
  let '(h1, object_members) := natives 100%positive object_natives ∅ ∅ in
  let '(h2, function_members) := natives 200%positive function_natives h1 ∅ in
  let '(h3, app_members) := natives 300%positive app_methods h2 ∅ in
  <[ObjectPrototype := Obj [] object_members false]>
  (<[FunctionPrototype :=
       Obj [ObjectPrototype]
           (<["name" := VStr ""]> (<["length" := VNum 0]> function_members)) true]>
  (<[AppFunction :=
       Obj [FunctionPrototype; ObjectPrototype]
           (<["prototype" := VObj AppPrototype]>
            (<["name" := VStr "App"]> (<["length" := VNum 2]> ∅))) true]>
  (<[AppPrototype :=
       Obj [ObjectPrototype]
           (<["app" := VStr "@VERSION"]>
            (<["constructor" := VObj AppFunction]>
            (<["debug" := VBool debug]>
            (<["appready" := VBool false]>
            (<["domready" :=
                 VBool (match rs with Loading => false | _ => true end)]>
            (<["data" := VObj Data]>
            (<["for" := VUndef]>
            (<["ie" := ie]> app_members)))))))) false]>
  (<[Data := Obj [ObjectPrototype] ∅ false]> h3)))).

(** The state once the script has run: [debug] is [!!window.APP_DEBUG],
    [rs] the ready state of the document at that time. *)
Definition boot (debug : bool) (rs : ready_state) (ael : bool)
  (loader_var : val) (w : gmap string loader) (t : Z) : state :=
  State (heap0 debug rs (VBool false)) ObjectPrototype AppPrototype
        loader_var w rs ael [] [] t [].
End Boot.



(** ** Auxiliary definitions used in the statements *)

(** What a computation may do to the state: it keeps every own property
    there was, and changes nothing else but the heap. *)
Definition extends (s s' : state) : Prop :=
  (forall l k x, own_prop (heap s) l k = Some x -> own_prop (heap s') l k = Some x)
  /\ s' = with_heap (heap s') s.

(** The work done by the first construction before the queue is replayed
    (lines 103-117). *)
Definition init_work (self : loc) (ld : loader) : M unit :=
  let* t := now in
  js_put self "time" t ;;
  js_put self "appready" (VBool true) ;;
  let* t0 := js_get self "time" in
  console_info "App: Ready and waiting for DOM..." (js_sub t0 (l_time ld)) ;;
  ready (HInit self) [] ;;
  ret tt.

(** The calls of a list dispatched one after the other, first to last. *)
Fixpoint dispatch_in_order (self : loc) (items : list arglist) : M unit :=
  match items with
  | [] => ret tt
  | item :: rest => dispatch self item ;; dispatch_in_order self rest
  end.



(** What a path resolves to when every key is found: [None] when a key is
    absent or the walk meets a value that is not an object. *)
Fixpoint resolve (h : gmap loc obj) (object : val) (keys : list string) : option val :=
  match keys with
  | [] => Some object
  | key :: rest =>
      match object with
      | VObj l =>
          match find_in h (chain h l) key with
          | Some m => resolve h m rest
          | None => None
          end
      | _ => None
      end
  end.

(** A path is missing when the walk, going through objects only, comes to
    an object that has not the next key. *)
Fixpoint missing (h : gmap loc obj) (object : val) (keys : list string) : bool :=
  match keys with
  | [] => false
  | key :: rest =>
      match object with
      | VObj l =>
          match find_in h (chain h l) key with
          | Some m => missing h m rest
          | None => true
          end
      | _ => false
      end
  end.

(** The argument lists with which the function [f] was invoked, in order. *)
Fixpoint calls_of (f : loc) (tr : list event) : list arglist :=
  match tr with
  | [] => []
  | ECall g a :: rest =>
      if Pos.eqb g f then a :: calls_of f rest else calls_of f rest
  | EInfo _ _ :: rest => calls_of f rest
  end.

(** A page: a placeholder that recorded two calls before the script was
    loaded (a store assignment and a ready callback [onReady] with one
    extra argument), the document already parsed. *)
Module Demo.
Definition onReady : loc := 500%positive.

Definition placeholder : loader :=
  Loader (VNum 100)
         (JsArray [[VStr "User.Name"; VStr "Ada"]; [VObj onReady; VNum 7]]).

Definition page_with (w : gmap string loader) (rs : ready_state) : state :=
  let b := Boot.boot false rs true VUndef w 130 in
  with_heap (<[onReady := Boot.function_object "onReady"]> (heap b)) b.

Definition page : state := page_with (<["app" := placeholder]> ∅) Complete.

(** The same page without the placeholder. *)
Definition bare_page : state := page_with ∅ Complete.

(** [app = new App()] on the page: the new object, the state in which
    the constructor is entered and the state reached. *)
Definition app : loc := 501%positive.

Definition allocated : state :=
  with_heap (<[app := Obj (chain (heap page) Boot.AppPrototype) ∅ false]>
               (heap page)) page.

Definition started : state := snd (new_App 2 [] page).
End Demo.

(** ** More of [App.prototype]: [indexOf], [trim], [parseCamelCase] *)

(** The operator [===] on the values of the model: NaN equals nothing. *)
Definition strict_equal (a b : val) : bool :=
  match a, b with
  | VNaN, _ | _, VNaN => false
  | _, _ => bool_decide (a = b)
  end.

(** [App.prototype.indexOf] (lines 353-361) on an array given by its
    elements: the index of the first element that [===] the target, or -1. *)
Fixpoint indexOf_from (i : Z) (array : list val) (target : val) : Z :=
  match array with
  | [] => (-1)%Z
  | x :: rest =>
      if strict_equal x target then i else indexOf_from (i + 1) rest target
  end.

Definition indexOf (array : list val) (target : val) : Z :=
  indexOf_from 0 array target.

(** The class [\s] on ASCII characters: tab, line feed, vertical tab, form
    feed, carriage return, space. *)
Definition is_space (c : ascii) : bool :=
  let n := nat_of_ascii c in
  ((9 <=? n)%nat && (n <=? 13)%nat) || (n =? 32)%nat.

Fixpoint all_space (s : string) : bool :=
  match s with
  | EmptyString => true
  | String c r => is_space c && all_space r
  end.

(** The match of [^\s+] removed. *)
Fixpoint drop_leading_space (s : string) : string :=
  match s with
  | EmptyString => EmptyString
  | String c r => if is_space c then drop_leading_space r else s
  end.

(** The match of [\s+$] removed: it starts at the first position from which
    only white space follows. *)
Fixpoint drop_trailing_space (s : string) : string :=
  match s with
  | EmptyString => EmptyString
  | String c r =>
      if all_space s then EmptyString else String c (drop_trailing_space r)
  end.

(** [App.prototype.trim] (lines 442-444):
    [string.replace(/^\s+|\s+$/g, '')]. *)
Definition trim (s : string) : string :=
  drop_trailing_space (drop_leading_space s).

Definition is_upper (c : ascii) : bool :=
  let n := nat_of_ascii c in (65 <=? n)%nat && (n <=? 90)%nat.

(** [string.split(/(?=[A-Z])/)]: a cut before every upper-case letter that
    is not the first character. *)
Fixpoint split_before_upper (s : string) : list string :=
  match s with
  | EmptyString => [EmptyString]
  | String c r =>
      match r with
      | EmptyString => [String c EmptyString]
      | String c' _ =>
          if is_upper c' then String c EmptyString :: split_before_upper r
          else match split_before_upper r with
               | x :: xs => String c x :: xs
               | [] => [String c EmptyString]
               end
      end
  end.

(** [App.prototype.parseCamelCase] (lines 430-434). *)
Definition parseCamelCase (s : string) : list string :=
  map toLowerCase (split_before_upper s).


Fixpoint has_dot (s : string) : bool :=
  match s with
  | EmptyString => false
  | String c r => Ascii.eqb c "."%char || has_dot r
  end.

(** ** [App.prototype.extend] (lines 328-344) *)










(** ** Well-formed heaps *)

(** A prototype chain is consistent when each of its objects exists and has
    the rest of the chain as its own prototypes. *)
Fixpoint chain_ok (h : gmap loc obj) (ps : list loc) : bool :=
  match ps with
  | [] => true
  | q :: post =>
      match h !! q with
      | Some oq => bool_decide (protos oq = post) && chain_ok h post
      | None => false
      end
  end.

(** A value that is not a reference to an object that does not exist. *)
Definition live (h : gmap loc obj) (v : val) : bool :=
  match v with
  | VObj l => bool_decide (is_Some (h !! l))
  | _ => true
  end.

Definition wf_obj (h : gmap loc obj) (o : obj) : Prop :=
  chain_ok h (protos o) = true
  /\ map_Forall (fun _ v => live h v = true) (props o).

(** Every object has a consistent prototype chain and holds live values;
    [Object.prototype] exists. *)
Definition wf_heap (h : gmap loc obj) : Prop :=
  map_Forall (fun _ o => wf_obj h o) h.

Definition wf_state (s : state) : Prop :=
  wf_heap (heap s) /\ is_Some (heap s !! object_proto s).

#[global] Instance wf_heap_dec (h : gmap loc obj) : Decision (wf_heap h).
Proof. unfold wf_heap, wf_obj. apply _. Defined.

(** A path that [set] will create: the walk goes through objects to one
    that has not the next key; when keys remain after that one, the object
    is not on the chain of [Object.prototype] and none of the remaining keys
    names a member of [Object.prototype] (which the new, empty intermediate
    objects would inherit). *)
Fixpoint creatable (h : gmap loc obj) (op : loc) (object : val)
  (keys : list string) : bool :=
  match keys with
  | [] => false
  | key :: rest =>
      match object with
      | VObj l =>
          match find_in h (chain h l) key with
          | Some m => creatable h op m rest
          | None =>
              match rest with
              | [] => true
              | _ :: _ =>
                  negb (bool_decide (l ∈ chain h op))
                  && forallb (fun k => negb (has_property h op k)) rest
              end
          end
      | _ => false
      end
  end.

(** What a step of a write keeps: what every lookup found, and the objects
    there are. *)
Definition stable (h h1 : gmap loc obj) : Prop :=
  (forall l k m, find_in h (chain h l) k = Some m ->
                 find_in h1 (chain h1 l) k = Some m)
  /\ (forall l, is_Some (h !! l) -> is_Some (h1 !! l)).

(** What a call made on [self] leaves alone: the own properties of the
    other objects, and the parts of the state that are not the heap, the
    listeners, the timers and the trace. *)
Definition outside (self : loc) (s s' : state) : Prop :=
  (forall l k x, l <> self -> own_prop (heap s) l k = Some x ->
                 own_prop (heap s') l k = Some x)
  /\ app_proto s' = app_proto s
  /\ object_proto s' = object_proto s
  /\ window s' = window s
  /\ app_loader_var s' = app_loader_var s
  /\ readyState s' = readyState s.

(** The state after the walk has made the intermediate object of a missing
    key. *)
Definition after_create (s : state) (l : loc) (key : string) : state :=
  with_heap
    (put_prop (<[fresh (dom (heap s)) :=
                  Obj (chain (heap s) (object_proto s)) ∅ false]> (heap s))
       l key (VObj (fresh (dom (heap s))))) s.

Fixpoint has_bracket (s : string) : bool :=
  match s with
  | EmptyString => false
  | String c r => Ascii.eqb c "["%char || has_bracket r
  end.

(** The state the initialization work leaves when the document is parsed. *)
Definition initialized (self : loc) (ld : loader) (s : state) : state :=
  with_timers (timers s ++ [(HInit self, [])])
    (with_trace (trace s ++ [EInfo "App: Ready and waiting for DOM..."
                               (js_sub (VNum (clock s)) (l_time ld))])
       (with_heap (put_prop (put_prop (heap s) self "time" (VNum (clock s)))
                            self "appready" (VBool true)) s)).

(** * Properties *)

Example path_keys_mixed :
  path_keys (PathStr ".a[b-c][d_1]..e[") = ["a[b-c]"; "d_1"; ""; "e["].
Proof. reflexivity. Qed.

Example toLowerCase_path : toLowerCase "User.Name[X]" = "user.name[x]".
Proof. reflexivity. Qed.


(** ** Heap lemmas *)

Lemma own_prop_in_chain (h : gmap loc obj) (l : loc) (k : string) (x : val) :
  own_prop h l k = Some x -> find_in h (chain h l) k = Some x.
Proof. intros H. unfold chain. simpl. now rewrite H. Qed.

Lemma has_property_false_own (h : gmap loc obj) (l : loc) (k : string) :
  has_property h l k = false -> own_prop h l k = None.
Proof.
  unfold has_property, chain. simpl.
  destruct (own_prop h l k); [discriminate | reflexivity].
Qed.

Lemma own_prop_get_prop (h : gmap loc obj) (l : loc) (k : string) (x : val) :
  own_prop h l k = Some x -> get_prop h l k = x.
Proof. intros H. unfold get_prop. now rewrite (own_prop_in_chain _ _ _ _ H). Qed.

Lemma own_prop_put_same (h : gmap loc obj) (l : loc) (k : string) (v : val) :
  is_Some (h !! l) -> own_prop (put_prop h l k v) l k = Some v.
Proof.
  intros [o Ho]. unfold put_prop, own_prop. rewrite Ho.
  rewrite lookup_insert_eq. simpl. apply lookup_insert_eq.
Qed.

Lemma own_prop_put_other (h : gmap loc obj) (l l' : loc) (k k' : string) (v : val) :
  l <> l' \/ k <> k' -> own_prop (put_prop h l k v) l' k' = own_prop h l' k'.
Proof.
  intros Hne. unfold put_prop, own_prop.
  destruct (h !! l) as [o|] eqn:Ho; [|reflexivity].
  destruct (decide (l = l')) as [<-|Hl].
  - rewrite lookup_insert_eq, Ho. simpl.
    destruct Hne as [Hne|Hne]; [congruence|]. now rewrite lookup_insert_ne.
  - now rewrite lookup_insert_ne.
Qed.

(** An assignment made because [key in object] was false keeps every
    property there was. *)
Lemma put_absent_keeps (h : gmap loc obj) (o l : loc) (key k : string) (v x : val) :
  own_prop h o key = None ->
  own_prop h l k = Some x -> own_prop (put_prop h o key v) l k = Some x.
Proof.
  intros Habs Hx. rewrite own_prop_put_other; [exact Hx|].
  destruct (decide (o = l)) as [->|]; [right|left; assumption].
  intros ->. congruence.
Qed.

Lemma fresh_not_in_heap (h : gmap loc obj) : h !! fresh (dom h) = None.
Proof. apply not_elem_of_dom. apply is_fresh. Qed.

Lemma alloc_keeps (h : gmap loc obj) (o : obj) (l : loc) (k : string) (x : val) :
  own_prop h l k = Some x -> own_prop (<[fresh (dom h) := o]> h) l k = Some x.
Proof.
  unfold own_prop. intros Hx.
  destruct (decide (fresh (dom h) = l)) as [<-|Hne].
  - now rewrite fresh_not_in_heap in Hx.
  - now rewrite lookup_insert_ne.
Qed.

Lemma alloc_own_empty (h : gmap loc obj) (ps : list loc) (c : bool) (k : string) :
  own_prop (<[fresh (dom h) := Obj ps ∅ c]> h) (fresh (dom h)) k = None.
Proof. unfold own_prop. rewrite lookup_insert_eq. simpl. apply lookup_empty. Qed.

(** ** The walk *)


Lemma extends_refl (s : state) : extends s s.
Proof. split; [auto|]. now destruct s. Qed.

Lemma extends_trans (s1 s2 s3 : state) :
  extends s1 s2 -> extends s2 s3 -> extends s1 s3.
Proof.
  intros [H1 E1] [H2 E2]. split; [auto|].
  rewrite E2 at 1. rewrite E1 at 1. reflexivity.
Qed.

Lemma walk_extends (keys : list string) :
  forall (object value : val) (create : bool) (s : state),
    extends s (snd (walk object keys value create s)).
Proof.
  induction keys as [|key rest IH]; intros object value create s; simpl.
  - apply extends_refl.
  - destruct object; simpl; try apply extends_refl.
    unfold bind, js_has, js_put, js_get, ret, new_object; simpl.
    destruct (has_property (heap s) l key) eqn:Hin; simpl.
    + apply IH.
    + pose proof (has_property_false_own _ _ _ Hin) as Hown.
      destruct create; simpl; [|apply extends_refl].
      destruct rest as [|key' rest']; simpl.
      * split; [|reflexivity]. simpl. intros l' k x Hx.
        now apply put_absent_keeps.
      * eapply extends_trans; [|apply IH].
        split; [|reflexivity]. simpl. intros l' k x Hx.
        apply put_absent_keeps.
        -- destruct (decide (fresh (dom (heap s)) = l)) as [<-|Hne].
           ++ apply alloc_own_empty.
           ++ unfold own_prop in *. now rewrite lookup_insert_ne.
        -- now apply alloc_keeps.
Qed.

(** A read never changes the state. *)
Lemma walk_readonly (keys : list string) :
  forall (object value : val) (s : state),
    snd (walk object keys value false s) = s.
Proof.
  induction keys as [|key rest IH]; intros object value s; simpl; [reflexivity|].
  destruct object; simpl; try reflexivity.
  unfold bind, js_has, js_get, ret; simpl.
  destruct (has_property (heap s) l key); simpl; [apply IH | reflexivity].
Qed.

Lemma walk_found (s : state) (l : loc) (key : string) (rest : list string)
  (m value : val) (create : bool) :
  find_in (heap s) (chain (heap s) l) key = Some m ->
  walk (VObj l) (key :: rest) value create s = walk m rest value create s.
Proof.
  intros Hm. cbn [walk].
  unfold bind, in_operand, js_has, js_get, ret, has_property, get_prop.
  cbv beta iota. rewrite Hm. cbn [negb andb]. cbv beta iota.
  rewrite Hm. reflexivity.
Qed.

Lemma walk_absent_read (s : state) (l : loc) (key : string)
  (rest : list string) (value : val) :
  find_in (heap s) (chain (heap s) l) key = None ->
  walk (VObj l) (key :: rest) value false s = (Ok value, s).
Proof.
  intros Hm. cbn [walk].
  unfold bind, in_operand, js_has, js_get, ret, has_property, get_prop.
  cbv beta iota. rewrite Hm. reflexivity.
Qed.

Lemma walk_primitive (s : state) (object : val) (key : string)
  (rest : list string) (value : val) (create : bool) :
  (forall l, object <> VObj l) ->
  walk object (key :: rest) value create s
  = (Throw (TypeError "right-hand side of 'in' is not an object"), s).
Proof.
  intros Hprim. cbn [walk]. unfold bind, in_operand.
  destruct object; try reflexivity. now destruct (Hprim l).
Qed.

(** ** Dispatch and initialization *)

Lemma ready_heap (h : handler) (args : arglist) (s : state) :
  heap (snd (ready h args s)) = heap s /\ trace (snd (ready h args s)) = trace s
  /\ fst (ready h args s) = Ok VUndef.
Proof.
  unfold ready, bind, ret, readyFn, setTimeout, addListener.
  destruct (readyState s); [destruct (has_addEventListener s)| |]; simpl; auto.
Qed.

Lemma dispatch_keeps (self : loc) (args : arglist) (s : state) :
  forall l k x,
    own_prop (heap s) l k = Some x ->
    own_prop (heap (snd (dispatch self args s))) l k = Some x.
Proof.
  intros l k x Hx. unfold dispatch, bind, js_typeof, js_get. simpl.
  match goal with |- context [String.eqb ?t "string"] => destruct (String.eqb t "string") end.
  - unfold _getOrSet. now apply walk_extends.
  - match goal with |- context [String.eqb ?t "function"] =>
      destruct (String.eqb t "function") end; simpl; [|exact Hx].
    destruct (ready_heap (HVal (nth 0 args VUndef)) (tl args) s) as [-> _]. exact Hx.
Qed.

(** On an object whose [appready] is not [false] the constructor is the
    dispatcher, whatever the depth left. *)
Lemma App_initialized (d : nat) (self : loc) (args : arglist) (s : state) :
  get_prop (heap s) self "appready" <> VBool false ->
  App (S d) self args s = dispatch self args s.
Proof.
  intros Hready. simpl. unfold App_with, bind, window_loader, js_get. simpl.
  rewrite bool_decide_eq_false_2 by exact Hready. reflexivity.
Qed.



Lemma replay_is_dispatch (d : nat) (self : loc) (items : list arglist) :
  forall (i : nat) (s : state),
    own_prop (heap s) self "appready" = Some (VBool true) ->
    each_from i items (fun item _ => App (S d) self item) s
    = dispatch_in_order self items s.
Proof.
  induction items as [|item rest IH]; intros i s Hready; [reflexivity|].
  cbn [each_from dispatch_in_order]. unfold bind.
  rewrite App_initialized
    by (rewrite (own_prop_get_prop _ _ _ _ Hready); discriminate).
  pose proof (dispatch_keeps self item s _ _ _ Hready) as Hkeep.
  destruct (dispatch self item s) as [[v| e| ] s1]; try reflexivity.
  apply IH. exact Hkeep.
Qed.

Lemma appready_false_in_heap (h : gmap loc obj) (self : loc) :
  get_prop h self "appready" = VBool false -> is_Some (h !! self).
Proof.
  unfold get_prop, chain. simpl. unfold own_prop.
  destruct (h !! self); [eauto | simpl; intros; discriminate].
Qed.

Lemma bind_Ok {A B} (m : M A) (f : A -> M B) (s s' : state) (a : A) :
  m s = (Ok a, s') -> bind m f s = f a s'.
Proof. intros H. unfold bind. now rewrite H. Qed.

Lemma bind_Throw {A B} (m : M A) (f : A -> M B) (s s' : state) (e : err) :
  m s = (Throw e, s') -> bind m f s = (Throw e, s').
Proof. intros H. unfold bind. now rewrite H. Qed.

Lemma bind_same {A B} (m m' : M A) (f : A -> M B) (s : state) :
  m s = m' s -> bind m f s = bind m' f s.
Proof. intros H. unfold bind. now rewrite H. Qed.

(** The initialization work always completes and leaves the object marked
    ready. *)
Lemma init_work_done (s : state) (self : loc) (ld : loader) :
  is_Some (heap s !! self) ->
  exists s1, init_work self ld s = (Ok tt, s1)
             /\ own_prop (heap s1) self "appready" = Some (VBool true).
Proof.
  intros [o Ho]. unfold init_work, bind, now, js_put, js_get, console_info.
  unfold ret. cbn [heap with_heap with_trace trace].
  match goal with
  | |- context [ready (HInit self) [] ?X] =>
      pose proof (ready_heap (HInit self) [] X) as (Hh & _ & Hr);
      destruct (ready (HInit self) [] X) as [r s1]
  end.
  cbn [fst snd heap with_heap with_trace] in Hh, Hr. subst r.
  exists s1. split; [reflexivity|].
  rewrite Hh. apply own_prop_put_same.
  unfold put_prop. rewrite Ho. rewrite lookup_insert_eq. eauto.
Qed.

(** The constructor on an object that is not ready, with the placeholder
    [ld]: the initialization work, the loop over the queue, the dispatch. *)
Lemma first_construction (recur : loc -> arglist -> M val) (s : state)
  (self : loc) (args : arglist) (ld : loader) :
  get_prop (heap s) self "appready" = VBool false ->
  window s !! loader_name s = Some ld ->
  App_with recur self args s
  = (init_work self ld ;;
     each (l_queue ld) (fun item _ => recur self item) ;;
     dispatch self args) s.
Proof.
  intros Hfalse Hld.
  unfold App_with, init_work, bind, window_loader, now, js_put, js_get,
    console_info, loader_time, loader_queue.
  unfold ret.
  cbn [heap with_heap with_trace]. rewrite Hld, Hfalse.
  rewrite bool_decide_eq_true_2 by reflexivity.
  cbn [l_time heap with_heap with_trace trace].
  match goal with
  | |- context [ready (HInit self) [] ?X] =>
      pose proof (ready_heap (HInit self) [] X) as (_ & _ & Hr);
      destruct (ready (HInit self) [] X) as [r s1]
  end.
  cbn [fst] in Hr. subst r. reflexivity.
Qed.

(** The constructor on an object that is not ready, without a placeholder:
    [loader.time] throws once the object has been marked. *)
Lemma construction_without_loader (recur : loc -> arglist -> M val) (s : state)
  (self : loc) (args : arglist) :
  get_prop (heap s) self "appready" = VBool false ->
  window s !! loader_name s = None ->
  App_with recur self args s
  = (Throw (TypeError "cannot read property 'time' of undefined"),
     with_heap (put_prop (put_prop (heap s) self "time" (VNum (clock s)))
                         self "appready" (VBool true)) s).
Proof.
  intros Hfalse Hld.
  unfold App_with, bind, window_loader, now, js_put, js_get, loader_time, throw.
  cbn [heap with_heap]. rewrite Hld, Hfalse.
  rewrite bool_decide_eq_true_2 by reflexivity. reflexivity.
Qed.

(** C7: on the first construction the N recorded calls are replayed through
    the live dispatcher in their insertion order, each once, after the
    initialization work and before the call that triggered the construction
    is dispatched (a replayed call that throws ends the construction
    there). *)
Theorem queue_replayed_in_order (d : nat) (s : state) (self : loc)
  (args : arglist) (ld : loader) (items : list arglist) :
  get_prop (heap s) self "appready" = VBool false ->
  window s !! loader_name s = Some ld ->
  l_queue ld = JsArray items ->
  App (S (S d)) self args s
  = (init_work self ld ;; dispatch_in_order self items ;; dispatch self args) s.
Proof.
  intros Hfalse Hld Hq.
  change (App (S (S d)) self args s) with (App_with (App (S d)) self args s).
  rewrite (first_construction _ _ _ _ _ Hfalse Hld).
  destruct (init_work_done s self ld (appready_false_in_heap _ _ Hfalse))
    as (s1 & Hinit & Hready).
  rewrite !(bind_Ok _ _ _ _ _ Hinit).
  apply bind_same. rewrite Hq. unfold each. cbn [isArray negb].
  now apply replay_is_dispatch.
Qed.

(** The depth given to [App] is of no consequence from 2 on: the calls made
    by the replay loop never initialize. *)
Lemma App_depth (d : nat) (s : state) (self : loc) (args : arglist) :
  App (S (S d)) self args s = App 2 self args s.
Proof.
  destruct (decide (get_prop (heap s) self "appready" = VBool false)) as [Hfalse|Hne].
  - change (App (S (S d)) self args s) with (App_with (App (S d)) self args s).
    change (App 2 self args s) with (App_with (App 1) self args s).
    destruct (window s !! loader_name s) as [ld|] eqn:Hld.
    + rewrite !(first_construction _ _ _ _ _ Hfalse Hld).
      destruct (init_work_done s self ld (appready_false_in_heap _ _ Hfalse))
        as (s1 & Hinit & Hready).
      rewrite !(bind_Ok _ _ _ _ _ Hinit). apply bind_same.
      unfold each. destruct (l_queue ld) as [|items]; [reflexivity|].
      cbn [isArray negb]. now rewrite !replay_is_dispatch.
    + now rewrite !(construction_without_loader _ _ _ _ Hfalse Hld).
  - now rewrite !App_initialized.
Qed.

Lemma walk_no_fuel (keys : list string) :
  forall (object value : val) (create : bool) (s : state),
    fst (walk object keys value create s) <> OutOfFuel.
Proof.
  induction keys as [|key rest IH]; intros object value create s;
    [discriminate|].
  destruct object; try (cbn; discriminate).
  destruct (find_in (heap s) (chain (heap s) l) key) as [m|] eqn:Hm.
  - rewrite (walk_found _ _ _ _ _ _ _ Hm). apply IH.
  - cbn [walk]. unfold bind, in_operand, js_has, js_put, js_get, ret,
      new_object, has_property. cbv beta iota. rewrite Hm. cbn [negb andb].
    destruct create; [|discriminate].
    destruct rest as [|key' rest']; cbv beta iota; [discriminate|apply IH].
Qed.

Lemma dispatch_no_fuel (self : loc) (args : arglist) (s : state) :
  fst (dispatch self args s) <> OutOfFuel.
Proof.
  unfold dispatch, bind, js_typeof, js_get. cbv beta iota.
  match goal with |- context [String.eqb ?t "string"] => destruct (String.eqb t "string") end.
  - apply walk_no_fuel.
  - match goal with |- context [String.eqb ?t "function"] =>
      destruct (String.eqb t "function") end; [|discriminate].
    destruct (ready_heap (HVal (nth 0 args VUndef)) (tl args) s) as (_ & _ & ->).
    discriminate.
Qed.

Lemma dispatch_in_order_no_fuel (self : loc) (items : list arglist) :
  forall s : state, fst (dispatch_in_order self items s) <> OutOfFuel.
Proof.
  induction items as [|item rest IH]; intros s; [discriminate|].
  cbn [dispatch_in_order]. unfold bind.
  pose proof (dispatch_no_fuel self item s) as Hd.
  destruct (dispatch self item s) as [[v|e|] s1]; cbn [fst] in *;
    [apply IH | discriminate | contradiction].
Qed.

(** With depth 2 or more the constructor returns or throws. *)
Lemma App_total (d : nat) (s : state) (self : loc) (args : arglist) :
  fst (App (S (S d)) self args s) <> OutOfFuel.
Proof.
  destruct (decide (get_prop (heap s) self "appready" = VBool false)) as [Hfalse|Hne].
  - change (App (S (S d)) self args s) with (App_with (App (S d)) self args s).
    destruct (window s !! loader_name s) as [ld|] eqn:Hld.
    + rewrite (first_construction _ _ _ _ _ Hfalse Hld).
      destruct (init_work_done s self ld (appready_false_in_heap _ _ Hfalse))
        as (s1 & Hinit & Hready).
      rewrite (bind_Ok _ _ _ _ _ Hinit).
      unfold each. destruct (l_queue ld) as [|items]; cbn [isArray negb].
      * unfold bind, ret. apply dispatch_no_fuel.
      * unfold bind. rewrite replay_is_dispatch by exact Hready.
        pose proof (dispatch_in_order_no_fuel self items s1) as Hd.
        destruct (dispatch_in_order self items s1) as [[v|e|] s2]; cbn [fst] in *;
          [apply dispatch_no_fuel | discriminate | contradiction].
    + now rewrite (construction_without_loader _ _ _ _ Hfalse Hld).
  - rewrite App_initialized by exact Hne. apply dispatch_no_fuel.
Qed.

(** ** Path normalization *)









Lemma append_cons (x : ascii) (a b : string) :
  (String x a ++ b)%string = String x (a ++ b)%string.
Proof. reflexivity. Qed.

Lemma append_assoc (a b c : string) :
  ((a ++ b) ++ c)%string = (a ++ (b ++ c))%string.
Proof.
  induction a as [|x a IH]; [reflexivity|].
  rewrite !append_cons. now rewrite IH.
Qed.






(** The example of the specification, on every store and for [get] and
    [set] alike. *)
Corollary get_bracketed_index (this D : val) (create : bool) (s : state) :
  _getOrSet this (PathStr "a.b[0].c") D create s
  = _getOrSet this (PathStr "a.b.0.c") D create s.
Proof. reflexivity. Qed.

Example path_keys_bracketed : path_keys (PathStr "a.b[0].c") = ["a"; "b"; "0"; "c"].
Proof. reflexivity. Qed.

Example path_keys_dotted : path_keys (PathStr "a.b.0.c") = ["a"; "b"; "0"; "c"].
Proof. reflexivity. Qed.

Example path_keys_leading_dot : path_keys (PathStr "[0].x") = ["0"; "x"].
Proof. reflexivity. Qed.

(** ** Reads and writes of paths that resolve *)

Lemma walk_resolved (keys : list string) :
  forall (object w value : val) (create : bool) (s : state),
    resolve (heap s) object keys = Some w ->
    walk object keys value create s = (Ok w, s).
Proof.
  induction keys as [|key rest IH]; intros object w value create s Hres.
  - cbn in *. now injection Hres as ->.
  - cbn [resolve] in Hres. destruct object; try discriminate.
    destruct (find_in (heap s) (chain (heap s) l) key) as [m|] eqn:Hm;
      [|discriminate].
    rewrite (walk_found _ _ _ _ _ _ _ Hm). now apply IH.
Qed.

(** A path that is missing reads as the default value. *)
Lemma get_missing (keys : list string) :
  forall (object D : val) (s : state),
    missing (heap s) object keys = true ->
    walk object keys D false s = (Ok D, s).
Proof.
  induction keys as [|key rest IH]; intros object D s Hmiss;
    cbn [missing] in Hmiss; [discriminate|].
  destruct object; try discriminate.
  destruct (find_in (heap s) (chain (heap s) l) key) as [m|] eqn:Hm.
  - rewrite (walk_found _ _ _ _ _ _ _ Hm). now apply IH.
  - now apply walk_absent_read.
Qed.

(** C1: [set] does not assign when the path already resolves: it returns the
    value found and changes nothing, so the [get] that follows returns the old
    value, not the one given to [set]. *)
Theorem set_keeps_existing_value (s : state) (this : val) (P : jspath)
  (w V D : val) :
  resolve (heap s) this (path_keys P) = Some w ->
  set this P V s = (Ok w, s) /\ get this P D s = (Ok w, s).
Proof.
  intros Hres. unfold set, get, _getOrSet.
  split; now apply walk_resolved.
Qed.

Lemma set_keeps_existing_value_witness :
  let s := snd (set (VObj Demo.app) (PathStr "user.name") (VStr "Ada") Demo.started) in
  fst (set (VObj Demo.app) (PathStr "user.name") (VStr "Bob") s) = Ok (VStr "Ada")
  /\ fst (get (VObj Demo.app) (PathStr "user.name") VUndef
            (snd (set (VObj Demo.app) (PathStr "user.name") (VStr "Bob") s)))
     = Ok (VStr "Ada").
Proof.
  intros s.
  destruct (set_keeps_existing_value s (VObj Demo.app) (PathStr "user.name")
              (VStr "Ada") (VStr "Bob") VUndef) as [Hset Hget];
    [vm_compute; reflexivity|].
  rewrite Hset. cbn [fst snd]. rewrite Hget. split; reflexivity.
Defined.

(** C3: a read whose path goes through a member that is not an object
    throws a TypeError (the [in] test of the next key), whatever the default
    value; the state is unchanged. *)
Theorem get_through_primitive_throws (s : state) (this : loc)
  (key next : string) (rest : list string) (m D : val) :
  find_in (heap s) (chain (heap s) this) key = Some m ->
  (forall l, m <> VObj l) ->
  get (VObj this) (PathSeq (key :: next :: rest)) D s
  = (Throw (TypeError "right-hand side of 'in' is not an object"), s).
Proof.
  intros Hm Hprim. unfold get, _getOrSet. cbn [path_keys].
  rewrite (walk_found _ _ _ _ _ _ _ Hm). now apply walk_primitive.
Qed.

Lemma get_through_primitive_throws_witness :
  get (VObj Demo.app) (PathSeq ["debug"; "x"]) (VNum 0) Demo.started
  = (Throw (TypeError "right-hand side of 'in' is not an object"), Demo.started).
Proof.
  apply (get_through_primitive_throws Demo.started Demo.app "debug" "x" []
           (VBool false) (VNum 0)); [vm_compute; reflexivity | discriminate].
Defined.

Example get_debug_x_string :
  fst (get (VObj Demo.app) (PathStr "debug.x") (VNum 0) Demo.started)
  = Throw (TypeError "right-hand side of 'in' is not an object").
Proof. vm_compute. reflexivity. Qed.

(** What does hold of reads: a read never changes the state, and a missing
    path (met on an object) reads as the default value. *)
Lemma get_missing_default (s : state) (this : val) (P : jspath) (D : val) :
  missing (heap s) this (path_keys P) = true ->
  get this P D s = (Ok D, s).
Proof. intros H. unfold get, _getOrSet. now apply get_missing. Qed.

Lemma get_readonly (s : state) (this : val) (P : jspath) (D : val) :
  snd (get this P D s) = s.
Proof. unfold get, _getOrSet. apply walk_readonly. Qed.

(** C10: the named accessors start from the object they are called on and
    [in] sees what the object inherits: when the first key names a member of
    the object (its own or one of a prototype), the walk goes on from that
    member, and a path of that one key yields the member, not the default
    value. *)
Theorem get_resolves_members (s : state) (this : loc) (path : jspath)
  (key : string) (rest : list string) (m D : val) :
  find_in (heap s) (chain (heap s) this) key = Some m ->
  path_keys path = key :: rest ->
  get (VObj this) path D s = walk m rest D false s
  /\ set (VObj this) path D s = walk m rest D true s
  /\ (rest = [] -> get (VObj this) path D s = (Ok m, s)).
Proof.
  intros Hm Hkeys.
  assert (Hstep : forall c, _getOrSet (VObj this) path D c s = walk m rest D c s).
  { intros c. unfold _getOrSet. rewrite Hkeys. now apply walk_found. }
  unfold get, set. rewrite !Hstep.
  repeat split. now intros ->.
Qed.

Lemma get_resolves_members_witness :
  get (VObj Demo.app) (PathStr "noop") (VStr "D") Demo.started
  = (Ok (VObj 321%positive), Demo.started).
Proof.
  apply (get_resolves_members Demo.started Demo.app (PathStr "noop") "noop" []
           (VObj 321%positive) (VStr "D"));
    [vm_compute; reflexivity | reflexivity | reflexivity].
Defined.

Example get_builtin_members :
  let read p := fst (get (VObj Demo.app) (PathStr p) (VStr "D") Demo.started) in
  read "data" = Ok (VObj Boot.Data)
  /\ read "debug" = Ok (VBool false)
  /\ read "domready" = Ok (VBool true)
  /\ read "now" = Ok (VObj 312%positive)
  /\ read "noop" = Ok (VObj 321%positive)
  /\ read "toString" = Ok (VObj 101%positive)
  /\ read "nothing" = Ok (VStr "D").
Proof. vm_compute. repeat split; reflexivity. Qed.

(** ** Construction *)

Lemma find_in_alloc (h : gmap loc obj) (ps ls : list loc) (c : bool) (k : string) :
  find_in (<[fresh (dom h) := Obj ps ∅ c]> h) ls k = find_in h ls k.
Proof.
  induction ls as [|l ls IH]; [reflexivity|]. cbn [find_in]. rewrite IH.
  assert (Hown : own_prop (<[fresh (dom h) := Obj ps ∅ c]> h) l k = own_prop h l k).
  { unfold own_prop. destruct (decide (fresh (dom h) = l)) as [<-|Hne].
    - rewrite lookup_insert_eq, fresh_not_in_heap. apply lookup_empty.
    - now rewrite lookup_insert_ne. }
  now rewrite Hown.
Qed.

Lemma chain_insert (h : gmap loc obj) (l : loc) (o : obj) :
  chain (<[l := o]> h) l = l :: protos o.
Proof. unfold chain. now rewrite lookup_insert_eq. Qed.

(** A new object inherits the members of its prototype. *)
Lemma new_object_inherits (h : gmap loc obj) (proto : loc) (k : string) :
  get_prop (<[fresh (dom h) := Obj (chain h proto) ∅ false]> h) (fresh (dom h)) k
  = get_prop h proto k.
Proof.
  unfold get_prop. rewrite chain_insert.
  cbn [protos find_in]. rewrite alloc_own_empty. now rewrite find_in_alloc.
Qed.

(** C6: when the placeholder global is absent the first construction throws
    a TypeError at [loader.time], after it has marked the new object ready
    and before it has registered the ready handler or replayed anything. *)
Theorem construct_without_placeholder_throws (d : nat) (s : state) (args : arglist) :
  window s !! loader_name s = None ->
  get_prop (heap s) (app_proto s) "appready" = VBool false ->
  fst (new_App (S d) args s)
  = Throw (TypeError "cannot read property 'time' of undefined")
  /\ timers (snd (new_App (S d) args s)) = timers s
  /\ listeners (snd (new_App (S d) args s)) = listeners s
  /\ trace (snd (new_App (S d) args s)) = trace s.
Proof.
  intros Hld Hfalse. unfold new_App. cbn [App].
  unfold App_with, bind, window_loader, js_get. cbv beta iota.
  cbn [heap with_heap window app_loader_var loader_name].
  change (loader_name (with_heap ?h s)) with (loader_name s).
  cbn [window with_heap]. rewrite Hld.
  rewrite new_object_inherits, Hfalse.
  rewrite bool_decide_eq_true_2 by reflexivity.
  unfold now, js_put, loader_time, throw. cbv beta iota.
  repeat split.
Qed.

Lemma construct_without_placeholder_throws_witness :
  fst (new_App 2 [] Demo.bare_page)
  = Throw (TypeError "cannot read property 'time' of undefined").
Proof.
  apply (construct_without_placeholder_throws 1 Demo.bare_page []);
    vm_compute; reflexivity.
Defined.

(** With a placeholder that has no array as its queue the construction
    completes and replays nothing. *)
Example construct_without_queue :
  let s := Demo.page_with (<["app" := Loader (VNum 100) NotArray]> ∅) Complete in
  fst (new_App 2 [] s) = Ok (VObj Demo.app)
  /\ timers (snd (new_App 2 [] s)) = [(HInit Demo.app, [])].
Proof. vm_compute. split; reflexivity. Qed.

(** C2: a second [new App()] initializes again: the new object reads
    [appready] from [App.prototype], where it is still [false], so the
    ready handler is registered again and the queue of the placeholder is
    replayed a second time ([onReady] is set to run twice). *)
Theorem second_construction_initializes_again :
  let s1 := Demo.started in
  let s2 := snd (new_App 2 [] s1) in
  get_prop (heap s1) Demo.app "appready" = VBool true
  /\ get_prop (heap s1) Boot.AppPrototype "appready" = VBool false
  /\ timers s1 = [(HInit Demo.app, []); (HVal (VObj Demo.onReady), [VNum 7])]
  /\ fst (new_App 2 [] s1) = Ok (VObj 503%positive)
  /\ timers s2 = (timers s1 ++ [(HInit 503%positive, []);
                                (HVal (VObj Demo.onReady), [VNum 7])])%list
  /\ calls_of Demo.onReady (trace (run_timers s2)) = [[VNum 7]; [VNum 7]].
Proof. vm_compute. repeat split; reflexivity. Qed.

(** The same when the caller has put the first object in place of the
    placeholder ([app = new App()]): nothing is replayed, the ready handler
    is registered again. *)
Example second_construction_after_assignment :
  let s1 := State (heap Demo.started) (object_proto Demo.started)
              (app_proto Demo.started) (app_loader_var Demo.started)
              (<["app" := Loader (get_prop (heap Demo.started) Demo.app "time") NotArray]> ∅)
              (readyState Demo.started) (has_addEventListener Demo.started)
              (listeners Demo.started) (timers Demo.started)
              (clock Demo.started) (trace Demo.started) in
  timers (snd (new_App 2 [] s1))
  = [(HInit Demo.app, []); (HVal (VObj Demo.onReady), [VNum 7]);
     (HInit 503%positive, [])].
Proof. vm_compute. reflexivity. Qed.

(** Calling the constructor again on the object that is initialized does
    fall through to the dispatcher. *)
Lemma reentry_is_dispatch (d : nat) (s : state) (self : loc) (args : arglist) :
  own_prop (heap s) self "appready" = Some (VBool true) ->
  App (S d) self args s = dispatch self args s.
Proof.
  intros H. apply App_initialized. rewrite (own_prop_get_prop _ _ _ _ H).
  discriminate.
Qed.

(** ** The callable and the named accessors *)

(** What the callable does with a string: the accessor on [self.data] with
    the path in lower case, creating when a value is given. *)
Lemma dispatch_string (s : state) (self : loc) (p : string) (rest : arglist) :
  dispatch self (VStr p :: rest) s
  = _getOrSet (get_prop (heap s) self "data") (PathStr (toLowerCase p))
      (nth 0 rest VUndef) (negb (bool_decide (nth 0 rest VUndef = VUndef))) s.
Proof.
  unfold dispatch, bind, js_typeof, js_get. cbn [nth String.eqb Ascii.eqb Bool.eqb].
  cbv beta iota.
  destruct (bool_decide (nth 0 rest VUndef = VUndef)) eqn:E; cbn [negb];
    [|reflexivity].
  apply bool_decide_eq_true_1 in E. now rewrite E.
Qed.

Lemma lower_char_idempotent (c : ascii) : lower_char (lower_char c) = lower_char c.
Proof. destruct c as [[] [] [] [] [] [] [] []]; reflexivity. Qed.

Lemma toLowerCase_idempotent (p : string) :
  toLowerCase (toLowerCase p) = toLowerCase p.
Proof.
  induction p as [|c p IH]; [reflexivity|].
  cbn [toLowerCase]. now rewrite lower_char_idempotent, IH.
Qed.

(** The callable does not tell a path from its lower-case form. *)
Lemma callable_case_insensitive (s : state) (self : loc) (p : string)
  (rest : arglist) :
  dispatch self (VStr p :: rest) s = dispatch self (VStr (toLowerCase p) :: rest) s.
Proof. rewrite !dispatch_string. now rewrite toLowerCase_idempotent. Qed.

(** C4: the callable and the named [set]/[get] do not work on the same
    store: [app('x', 1)] writes [x] into [self.data], [set('x', 1)] writes it
    on the object itself, and neither reads what the other wrote; what the
    replay of the queue stored at ['User.Name'] is read by the callable at
    that path and by [get] only at ['data.user.name']. *)
Theorem callable_and_named_set_differ :
  let s := Demo.started in
  let s_call := snd (dispatch Demo.app [VStr "x"; VNum 1] s) in
  let s_set := snd (set (VObj Demo.app) (PathStr "x") (VNum 1) s) in
  fst (dispatch Demo.app [VStr "x"; VNum 1] s) = Ok (VNum 1)
  /\ fst (set (VObj Demo.app) (PathStr "x") (VNum 1) s) = Ok (VNum 1)
  /\ own_prop (heap s_call) Boot.Data "x" = Some (VNum 1)
  /\ own_prop (heap s_call) Demo.app "x" = None
  /\ own_prop (heap s_set) Boot.Data "x" = None
  /\ own_prop (heap s_set) Demo.app "x" = Some (VNum 1)
  /\ fst (get (VObj Demo.app) (PathStr "x") (VStr "D") s_call) = Ok (VStr "D")
  /\ fst (dispatch Demo.app [VStr "x"] s_set) = Ok VUndef
  /\ fst (dispatch Demo.app [VStr "x"] s_call) = Ok (VNum 1)
  /\ fst (get (VObj Demo.app) (PathStr "x") (VStr "D") s_set) = Ok (VNum 1)
  /\ fst (dispatch Demo.app [VStr "User.Name"] s) = Ok (VStr "Ada")
  /\ fst (get (VObj Demo.app) (PathStr "User.Name") (VStr "D") s) = Ok (VStr "D")
  /\ fst (get (VObj Demo.app) (PathStr "data.user.name") (VStr "D") s)
     = Ok (VStr "Ada").
Proof. vm_compute. repeat split; reflexivity. Qed.

(** C5: the named [set] and [get] use the path as it is written: a value
    stored by [set] at ['Key'] is not found by [get] at ['key'], while the
    callable finds at ['key'] and ['KEY'] what it stored at ['Key']. *)
Theorem named_accessors_are_case_sensitive :
  let s := Demo.started in
  let s_set := snd (set (VObj Demo.app) (PathStr "Key") (VNum 1) s) in
  let s_call := snd (dispatch Demo.app [VStr "Key"; VNum 1] s) in
  fst (set (VObj Demo.app) (PathStr "Key") (VNum 1) s) = Ok (VNum 1)
  /\ fst (get (VObj Demo.app) (PathStr "Key") (VStr "D") s_set) = Ok (VNum 1)
  /\ fst (get (VObj Demo.app) (PathStr "key") (VStr "D") s_set) = Ok (VStr "D")
  /\ own_prop (heap s_set) Demo.app "Key" = Some (VNum 1)
  /\ own_prop (heap s_set) Demo.app "key" = None
  /\ fst (dispatch Demo.app [VStr "key"] s_call) = Ok (VNum 1)
  /\ fst (dispatch Demo.app [VStr "KEY"] s_call) = Ok (VNum 1)
  /\ own_prop (heap s_call) Boot.Data "key" = Some (VNum 1).
Proof. vm_compute. repeat split; reflexivity. Qed.

Lemma queue_replayed_in_order_witness :
  App 2 Demo.app [VStr "user.name"] Demo.allocated
  = (init_work Demo.app Demo.placeholder ;;
     dispatch_in_order Demo.app
       [[VStr "User.Name"; VStr "Ada"]; [VObj Demo.onReady; VNum 7]] ;;
     dispatch Demo.app [VStr "user.name"]) Demo.allocated.
Proof.
  apply (queue_replayed_in_order 0 Demo.allocated Demo.app [VStr "user.name"]
           Demo.placeholder
           [[VStr "User.Name"; VStr "Ada"]; [VObj Demo.onReady; VNum 7]]);
    vm_compute; reflexivity.
Defined.

Example replay_then_call :
  fst (App 2 Demo.app [VStr "user.name"] Demo.allocated) = Ok (VStr "Ada")
  /\ timers (snd (App 2 Demo.app [VStr "user.name"] Demo.allocated))
     = [(HInit Demo.app, []); (HVal (VObj Demo.onReady), [VNum 7])].
Proof. vm_compute. split; reflexivity. Qed.

(** ** Ready callbacks *)

Lemma is_callable_put (h : gmap loc obj) (l : loc) (k : string) (v x : val) :
  is_callable (put_prop h l k v) x = is_callable h x.
Proof.
  unfold is_callable, put_prop. destruct x; try reflexivity.
  destruct (h !! l) as [o|] eqn:Ho; [|reflexivity].
  destruct (decide (l = l0)) as [<-|Hne].
  - now rewrite lookup_insert_eq, Ho.
  - now rewrite lookup_insert_ne.
Qed.









(** On a document that is still loading and has no [addEventListener] the
    callback is attached to [onreadystatechange]; it is set to run at each
    change of the ready state that follows. *)
Example legacy_readystatechange :
  let s := Boot.boot false Loading false VUndef ∅ 0 in
  let s1 := snd (ready (HVal (VObj Boot.AppFunction)) [VNum 1] s) in
  trace (run_timers s1) = []
  /\ trace (run_timers (fire_readystatechange Interactive s1))
     = [ECall Boot.AppFunction [VNum 1]]
  /\ trace (run_timers (fire_readystatechange Complete
                         (run_timers (fire_readystatechange Interactive s1))))
     = [ECall Boot.AppFunction [VNum 1]; ECall Boot.AppFunction [VNum 1]].
Proof. vm_compute. repeat split; reflexivity. Qed.

(** * More properties of the accessor, the callable and the constructor *)

(** X1: a read never changes anything: whether it returns or throws,
    [get] leaves the state as it was, and so does the callable given a path
    and no value. *)
Theorem reads_leave_state (s : state) (this : val) (P : jspath) (D : val)
  (self : loc) (p : string) :
  snd (get this P D s) = s /\ snd (dispatch self [VStr p] s) = s.
Proof.
  split.
  - unfold get, _getOrSet. apply walk_readonly.
  - rewrite dispatch_string. cbn [nth].
    rewrite bool_decide_eq_true_2 by reflexivity. cbn [negb].
    unfold _getOrSet. apply walk_readonly.
Qed.

(** X2: a write only adds: [set] keeps every own property of every object
    with the value it had, and touches nothing but the heap. *)
Theorem set_only_adds (s : state) (this : val) (P : jspath) (V : val) :
  let s' := snd (set this P V s) in
  (forall l k x, own_prop (heap s) l k = Some x -> own_prop (heap s') l k = Some x)
  /\ timers s' = timers s /\ listeners s' = listeners s /\ trace s' = trace s
  /\ window s' = window s /\ readyState s' = readyState s.
Proof.
  intros s'. destruct (walk_extends (path_keys P) this V true s) as [Hkeep Hrest].
  fold (_getOrSet this P V true s) in Hkeep, Hrest. fold (set this P V s) in Hkeep, Hrest.
  fold s' in Hkeep, Hrest. split; [exact Hkeep|].
  rewrite Hrest. repeat split.
Qed.

(** X3: what the callable does with a string is what the named accessors
    do with the pre-split path made of ['data'] and the keys of the path in
    lower case: [set] when a value other than [undefined] is given, [get]
    with default [undefined] otherwise. *)
Theorem callable_is_accessor_under_data (s : state) (self : loc) (p : string)
  (rest : arglist) (d : val) :
  find_in (heap s) (chain (heap s) self) "data" = Some d ->
  dispatch self (VStr p :: rest) s
  = (if bool_decide (nth 0 rest VUndef = VUndef)
     then get (VObj self)
            (PathSeq ("data" :: path_keys (PathStr (toLowerCase p)))) VUndef s
     else set (VObj self)
            (PathSeq ("data" :: path_keys (PathStr (toLowerCase p))))
            (nth 0 rest VUndef) s).
Proof.
  intros Hd. rewrite dispatch_string.
  assert (Hg : get_prop (heap s) self "data" = d)
    by (unfold get_prop; now rewrite Hd).
  rewrite Hg. unfold get, set, _getOrSet. cbn [path_keys].
  rewrite !(walk_found _ _ _ _ _ _ _ Hd).
  destruct (bool_decide (nth 0 rest VUndef = VUndef)) eqn:E; cbn [negb];
    [|reflexivity].
  apply bool_decide_eq_true_1 in E. now rewrite E.
Qed.

Lemma callable_is_accessor_under_data_witness :
  dispatch Demo.app [VStr "User.Name"] Demo.started
  = get (VObj Demo.app) (PathSeq ["data"; "user"; "name"]) VUndef Demo.started.
Proof.
  apply (callable_is_accessor_under_data Demo.started Demo.app "User.Name" []
           (VObj Boot.Data)).
  vm_compute. reflexivity.
Defined.

(** X4: the callable does not tell apart two paths that differ only in the
    case of their letters. *)
Theorem callable_ignores_case (s : state) (self : loc) (p q : string)
  (rest : arglist) :
  toLowerCase p = toLowerCase q ->
  dispatch self (VStr p :: rest) s = dispatch self (VStr q :: rest) s.
Proof. intros H. rewrite !dispatch_string. now rewrite H. Qed.

Lemma callable_ignores_case_witness :
  dispatch Demo.app [VStr "User.Name"] Demo.started
  = dispatch Demo.app [VStr "USER.name"] Demo.started.
Proof.
  apply (callable_ignores_case Demo.started Demo.app "User.Name" "USER.name" []).
  reflexivity.
Defined.

(** X5: an object marked ready stays marked: neither a later call of the
    constructor on it, whatever its arguments, nor a [set] on it changes its
    [appready]; the later call is a plain dispatch. *)
Theorem ready_mark_is_kept (d : nat) (s : state) (self : loc) (args : arglist)
  (P : jspath) (V : val) :
  own_prop (heap s) self "appready" = Some (VBool true) ->
  App (S d) self args s = dispatch self args s
  /\ own_prop (heap (snd (App (S d) self args s))) self "appready"
     = Some (VBool true)
  /\ own_prop (heap (snd (set (VObj self) P V s))) self "appready"
     = Some (VBool true).
Proof.
  intros Hready.
  assert (Happ : App (S d) self args s = dispatch self args s).
  { apply App_initialized. rewrite (own_prop_get_prop _ _ _ _ Hready). discriminate. }
  split; [exact Happ|]. split.
  - rewrite Happ. now apply dispatch_keeps.
  - unfold set, _getOrSet. now apply walk_extends.
Qed.

Lemma ready_mark_is_kept_witness :
  own_prop (heap (snd (App 1 Demo.app [VStr "appready"; VBool false] Demo.started)))
    Demo.app "appready" = Some (VBool true).
Proof.
  pose proof (ready_mark_is_kept 0 Demo.started Demo.app
                [VStr "appready"; VBool false] (PathStr "appready") (VBool false))
    as H.
  destruct H as (_ & H & _); [vm_compute; reflexivity | exact H].
Defined.

(** X6: the replay cannot nest: a constructor call made by the replay loop
    never initializes, so the constructor always returns or throws within
    two levels, and any greater depth gives the same outcome. *)
Theorem replay_never_nests (d : nat) (s : state) (self : loc) (args : arglist) :
  App (S (S d)) self args s = App 2 self args s
  /\ fst (App (S (S d)) self args s) <> OutOfFuel.
Proof. split; [apply App_depth | apply App_total]. Qed.

Lemma bind_ext {A B} (m : M A) (f g : A -> M B) (s : state) :
  (forall a s', f a s' = g a s') -> bind m f s = bind m g s.
Proof.
  intros H. unfold bind. destruct (m s) as [[a|e|] s']; [apply H | reflexivity..].
Qed.

(** X7: a placeholder whose [queue] is not an array is accepted: the first
    construction does its initialization work and dispatches its own
    arguments, and replays nothing. *)
Theorem construction_without_queue (d : nat) (s : state) (self : loc)
  (args : arglist) (ld : loader) :
  get_prop (heap s) self "appready" = VBool false ->
  window s !! loader_name s = Some ld ->
  l_queue ld = NotArray ->
  App (S d) self args s = (init_work self ld ;; dispatch self args) s.
Proof.
  intros Hfalse Hld Hq.
  change (App (S d) self args s) with (App_with (App d) self args s).
  rewrite (first_construction _ _ _ _ _ Hfalse Hld).
  apply bind_ext. intros _ s'. now rewrite Hq.
Qed.

Lemma construction_without_queue_witness :
  App 1 Demo.app []
    (with_heap (heap Demo.allocated)
       (Demo.page_with (<["app" := Loader (VNum 100) NotArray]> ∅) Complete))
  = (init_work Demo.app (Loader (VNum 100) NotArray) ;; dispatch Demo.app [])
      (with_heap (heap Demo.allocated)
         (Demo.page_with (<["app" := Loader (VNum 100) NotArray]> ∅) Complete)).
Proof.
  apply (construction_without_queue 0
           (with_heap (heap Demo.allocated)
              (Demo.page_with (<["app" := Loader (VNum 100) NotArray]> ∅) Complete))
           Demo.app [] (Loader (VNum 100) NotArray));
    vm_compute; reflexivity.
Defined.

Lemma is_callable_alloc (h : gmap loc obj) (o : obj) (f : loc) :
  is_callable h (VObj f) = true ->
  is_callable (<[fresh (dom h) := o]> h) (VObj f) = true.
Proof.
  unfold is_callable. intros H.
  destruct (decide (fresh (dom h) = f)) as [<-|Hne].
  - now rewrite fresh_not_in_heap in H.
  - now rewrite lookup_insert_ne.
Qed.

Lemma ready_when_parsed (h : handler) (a : arglist) (s : state) :
  readyState s <> Loading ->
  ready h a s = (Ok VUndef, with_timers (timers s ++ [(h, a)]) s).
Proof.
  intros Hrs. unfold ready, bind, ret, readyFn, setTimeout.
  destruct (readyState s); [contradiction | reflexivity | reflexivity].
Qed.

Lemma dispatch_function (s : state) (self f : loc) (args : arglist) :
  is_callable (heap s) (VObj f) = true ->
  dispatch self (VObj f :: args) s = ready (HVal (VObj f)) args s.
Proof.
  intros Hc. unfold dispatch, bind, js_typeof. cbn [nth tl].
  cbv beta iota. rewrite Hc. reflexivity.
Qed.

Lemma put_prop_live (h : gmap loc obj) (l l' : loc) (k : string) (v : val) :
  is_Some (h !! l') -> is_Some (put_prop h l k v !! l').
Proof.
  intros Hl. unfold put_prop. destruct (h !! l) as [o|] eqn:Ho; [|exact Hl].
  destruct (decide (l = l')) as [<-|Hne].
  - rewrite lookup_insert_eq. eauto.
  - now rewrite lookup_insert_ne.
Qed.

Lemma init_work_when_parsed (s : state) (self : loc) (ld : loader) :
  is_Some (heap s !! self) ->
  readyState s <> Loading ->
  init_work self ld s = (Ok tt, initialized self ld s).
Proof.
  intros Hlive Hrs. unfold init_work, bind, now, js_put, js_get, console_info.
  unfold ret. cbn [heap with_heap with_trace trace].
  assert (Htime : get_prop (put_prop (put_prop (heap s) self "time" (VNum (clock s)))
                              self "appready" (VBool true)) self "time"
                  = VNum (clock s)).
  { apply own_prop_get_prop. rewrite own_prop_put_other by (right; discriminate).
    now apply own_prop_put_same. }
  rewrite Htime. rewrite ready_when_parsed by exact Hrs. reflexivity.
Qed.

(** X8: [new App(f, extra...)] on a page whose document is parsed and whose
    placeholder recorded nothing (what the demo script does): the result is
    the new object; two timers are set, the ready handler of the object and
    then [f]; when they fire [f] runs once with the extra arguments, after
    the object's [domready] has been set. *)
Theorem construction_with_callback (d : nat) (s : state) (f : loc)
  (extra : arglist) (ld : loader) :
  window s !! loader_name s = Some ld ->
  l_queue ld = JsArray [] ->
  get_prop (heap s) (app_proto s) "appready" = VBool false ->
  is_callable (heap s) (VObj f) = true ->
  readyState s <> Loading ->
  timers s = [] ->
  let self := fresh (dom (heap s)) in
  let s1 := snd (new_App (S d) (VObj f :: extra) s) in
  fst (new_App (S d) (VObj f :: extra) s) = Ok (VObj self)
  /\ timers s1 = [(HInit self, []); (HVal (VObj f), extra)]
  /\ trace s1
     = (trace s ++ [EInfo "App: Ready and waiting for DOM..."
                      (js_sub (VNum (clock s)) (l_time ld))])%list
  /\ trace (run_timers s1)
     = (trace s1 ++ [EInfo "App: Hurray, DOM is ready... " (VNum 0);
                     ECall f extra])%list
  /\ get_prop (heap (run_timers s1)) self "domready" = VBool true.
Proof.
  intros Hld Hq Hfalse Hc Hrs Hts self s1.
  set (sa := with_heap (<[self := Obj (chain (heap s) (app_proto s)) ∅ false]> (heap s)) s).
  assert (Hfalse' : get_prop (heap sa) self "appready" = VBool false).
  { subst sa self. cbn [heap with_heap]. now rewrite new_object_inherits. }
  assert (Hca : is_callable (heap sa) (VObj f) = true)
    by (subst sa self; cbn [heap with_heap]; now apply is_callable_alloc).
  assert (Hlive : is_Some (heap sa !! self))
    by (subst sa; cbn [heap with_heap]; rewrite lookup_insert_eq; eauto).
  set (si := initialized self ld sa).
  assert (Hci : is_callable (heap si) (VObj f) = true).
  { subst si. unfold initialized. cbn [heap with_heap with_trace with_timers].
    now rewrite !is_callable_put. }
  set (s2 := with_timers (timers si ++ [(HVal (VObj f), extra)]) si).
  assert (Happ : App (S d) self (VObj f :: extra) sa = (Ok VUndef, s2)).
  { change (App (S d) self (VObj f :: extra) sa)
      with (App_with (App d) self (VObj f :: extra) sa).
    rewrite (first_construction _ _ _ _ _ Hfalse' Hld).
    rewrite (bind_Ok _ _ _ _ _ (init_work_when_parsed sa self ld Hlive Hrs)).
    fold si. rewrite Hq. unfold each. cbn [isArray negb each_from].
    unfold bind at 1. unfold ret at 1.
    rewrite (dispatch_function si self f extra Hci).
    now rewrite ready_when_parsed by exact Hrs. }
  assert (Hnew : new_App (S d) (VObj f :: extra) s = (Ok (VObj self), s2)).
  { change (new_App (S d) (VObj f :: extra) s)
      with ((let* r := App (S d) self (VObj f :: extra) in
             ret (match r with VObj _ => r | _ => VObj self end)) sa).
    now rewrite (bind_Ok _ _ _ _ _ Happ). }
  subst s1. rewrite Hnew. cbn [fst snd].
  assert (Htm : timers s2 = [(HInit self, []); (HVal (VObj f), extra)]).
  { subst s2 si. unfold initialized. cbn [timers with_timers with_trace with_heap].
    change (timers sa) with (timers s). now rewrite Hts. }
  split; [reflexivity|]. split; [exact Htm|]. split; [reflexivity|].
  unfold run_timers. rewrite Htm. cbn [run_tasks run_handler].
  unfold bind, now, js_put, js_get, console_info. unfold ret.
  cbn [snd fst heap with_heap with_trace with_timers trace clock].
  set (h2 := put_prop (heap s2) self "domready" (VBool true)).
  assert (Hlive2 : is_Some (heap s2 !! self)).
  { subst s2 si. unfold initialized. cbn [heap with_heap with_trace with_timers].
    now do 2 apply put_prop_live. }
  assert (Htime : get_prop h2 self "time" = VNum (clock s)).
  { apply own_prop_get_prop. subst h2.
    rewrite own_prop_put_other by (right; discriminate).
    subst s2 si. unfold initialized. cbn [heap with_heap with_trace with_timers].
    rewrite own_prop_put_other by (right; discriminate).
    now apply own_prop_put_same. }
  rewrite Htime. change (clock s2) with (clock s).
  cbn [js_sub to_number]. rewrite Z.sub_diag.
  assert (Hc2 : is_callable h2 (VObj f) = true).
  { subst h2. rewrite is_callable_put. subst s2. exact Hci. }
  rewrite Hc2. cbn [snd heap with_heap with_trace with_timers trace].
  split.
  - now rewrite <- app_assoc.
  - apply own_prop_get_prop. subst h2. now apply own_prop_put_same.
Qed.

Lemma construction_with_callback_witness :
  fst (new_App 1 [VObj Demo.onReady; VNum 7]
         (Demo.page_with (<["app" := Loader (VNum 100) (JsArray [])]> ∅) Complete))
  = Ok (VObj Demo.app).
Proof.
  pose proof (construction_with_callback 0
                (Demo.page_with (<["app" := Loader (VNum 100) (JsArray [])]> ∅) Complete)
                Demo.onReady [VNum 7] (Loader (VNum 100) (JsArray []))) as H.
  destruct H as (H & _);
    [vm_compute; reflexivity | reflexivity | vm_compute; reflexivity
    | vm_compute; reflexivity | vm_compute; discriminate | reflexivity |].
  rewrite H. vm_compute. reflexivity.
Defined.

(** X9: once the ready handler of an object has run, the callable without
    arguments answers [true] on that object, and no [set] on the object
    changes that. *)
Theorem domready_after_handler (s : state) (self : loc) (P : jspath) (V : val) :
  is_Some (heap s !! self) ->
  let s' := snd (run_handler (HInit self) [] s) in
  dispatch self [] s' = (Ok (VBool true), s')
  /\ fst (dispatch self [] (snd (set (VObj self) P V s'))) = Ok (VBool true).
Proof.
  intros Hlive s'.
  assert (Hown : own_prop (heap s') self "domready" = Some (VBool true)).
  { subst s'. cbn [run_handler]. unfold bind, js_put, now, js_get, console_info.
    unfold ret. cbn [snd heap with_heap with_trace]. now apply own_prop_put_same. }
  assert (Hd : forall st, own_prop (heap st) self "domready" = Some (VBool true) ->
                          dispatch self [] st = (Ok (VBool true), st)).
  { intros st Hst. unfold dispatch, bind, js_typeof, js_get. cbn [nth].
    cbv beta iota. cbn [String.eqb Ascii.eqb Bool.eqb].
    now rewrite (own_prop_get_prop _ _ _ _ Hst). }
  split; [now apply Hd|].
  rewrite Hd; [reflexivity|]. unfold set, _getOrSet. now apply walk_extends.
Qed.

Lemma domready_after_handler_witness :
  fst (dispatch Demo.app [] (snd (run_handler (HInit Demo.app) [] Demo.started)))
  = Ok (VBool true).
Proof.
  pose proof (domready_after_handler Demo.started Demo.app (PathStr "x") VUndef) as H.
  destruct H as (H & _); [vm_compute; eauto|].
  rewrite H. reflexivity.
Defined.

Lemma notify_loaded_app (l1 l2 : list listener) :
  forall s : state, notify_loaded (l1 ++ l2) s = notify_loaded l2 (notify_loaded l1 s).
Proof.
  induction l1 as [|[h a|h a] l1 IH]; intros s; cbn [app notify_loaded];
    [reflexivity | apply IH | apply IH].
Qed.

Lemma notify_loaded_listeners (ls x : list listener) :
  forall s : state,
    notify_loaded ls (with_listeners x s) = with_listeners x (notify_loaded ls s).
Proof.
  induction ls as [|[h a|h a] ls IH]; intros s; cbn [notify_loaded];
    [reflexivity | | apply IH].
  change (snd (readyFn h a (with_listeners x s)))
    with (with_listeners x (snd (readyFn h a s))).
  apply IH.
Qed.

(** X10: a callback registered while the document is loading, on a document
    that has [addEventListener], is not set to run by the registration; when
    [DOMContentLoaded] fires it is set to run once, after the callbacks
    registered before it. *)
Theorem ready_waits_for_DOMContentLoaded (s : state) (h : handler) (a : arglist) :
  readyState s = Loading ->
  has_addEventListener s = true ->
  let s' := snd (ready h a s) in
  fst (ready h a s) = Ok VUndef
  /\ timers s' = timers s
  /\ listeners s' = (listeners s ++ [OnDOMContentLoaded h a])%list
  /\ timers (fire_DOMContentLoaded s')
     = (timers (fire_DOMContentLoaded s) ++ [(h, a)])%list.
Proof.
  intros Hrs Hael s'.
  assert (Hs' : s' = with_listeners (listeners s ++ [OnDOMContentLoaded h a]) s).
  { subst s'. unfold ready, bind, ret, addListener. now rewrite Hrs, Hael. }
  split; [apply ready_heap|]. rewrite Hs'.
  split; [reflexivity|]. split; [reflexivity|].
  unfold fire_DOMContentLoaded. cbn [listeners with_listeners with_readyState].
  rewrite notify_loaded_app.
  change (with_readyState Interactive
            (with_listeners (listeners s ++ [OnDOMContentLoaded h a]) s))
    with (with_listeners (listeners s ++ [OnDOMContentLoaded h a])
            (with_readyState Interactive s)).
  rewrite notify_loaded_listeners. reflexivity.
Qed.

Lemma ready_waits_for_DOMContentLoaded_witness :
  timers (fire_DOMContentLoaded
            (snd (ready (HVal (VObj Demo.onReady)) [VNum 1]
                    (Demo.page_with ∅ Loading))))
  = [(HVal (VObj Demo.onReady), [VNum 1])].
Proof.
  pose proof (ready_waits_for_DOMContentLoaded (Demo.page_with ∅ Loading)
                (HVal (VObj Demo.onReady)) [VNum 1]) as H.
  destruct H as (_ & _ & _ & H); [reflexivity | reflexivity|].
  rewrite H. reflexivity.
Defined.

Lemma notify_change_app (l1 l2 : list listener) :
  forall s : state, notify_change (l1 ++ l2) s = notify_change l2 (notify_change l1 s).
Proof.
  induction l1 as [|[h a|h a] l1 IH]; intros s; cbn [app notify_change];
    [reflexivity | apply IH | apply IH].
Qed.

Lemma notify_change_listeners (ls x : list listener) :
  forall s : state,
    notify_change ls (with_listeners x s) = with_listeners x (notify_change ls s).
Proof.
  induction ls as [|[h a|h a] ls IH]; intros s; cbn [notify_change];
    [reflexivity | apply IH |].
  cbn [readyState with_listeners].
  destruct (readyState s); [apply IH | |];
    change (snd (readyFn h a (with_listeners x s)))
      with (with_listeners x (snd (readyFn h a s))); apply IH.
Qed.

Lemma notify_change_readyState (ls : list listener) :
  forall s : state, readyState (notify_change ls s) = readyState s.
Proof.
  induction ls as [|[h a|h a] ls IH]; intros s; cbn [notify_change];
    [reflexivity | apply IH |].
  rewrite IH. destruct (readyState s) eqn:E; [exact E | exact E | exact E].
Qed.

Lemma notify_change_keeps_listeners (ls : list listener) :
  forall s : state, listeners (notify_change ls s) = listeners s.
Proof.
  induction ls as [|[h a|h a] ls IH]; intros s; cbn [notify_change];
    [reflexivity | apply IH |].
  rewrite IH. destruct (readyState s); reflexivity.
Qed.

(** X11: on a document without [addEventListener] a callback registered
    while the document is loading is attached to [onreadystatechange] and
    stays attached: every later change to a state other than loading sets
    it to run once more. *)
Theorem legacy_ready_runs_per_change (s : state) (h : handler) (a : arglist) :
  readyState s = Loading ->
  has_addEventListener s = false ->
  let s' := snd (ready h a s) in
  timers s' = timers s
  /\ listeners s' = (listeners s ++ [OnReadyStateChange h a])%list
  /\ forall (st : state) (ls : list listener) (r : ready_state),
       r <> Loading ->
       listeners st = (ls ++ [OnReadyStateChange h a])%list ->
       timers (fire_readystatechange r st)
       = (timers (fire_readystatechange r (with_listeners ls st)) ++ [(h, a)])%list
       /\ listeners (fire_readystatechange r st) = listeners st.
Proof.
  intros Hrs Hael s'.
  assert (Hs' : s' = with_listeners (listeners s ++ [OnReadyStateChange h a]) s).
  { subst s'. unfold ready, bind, ret, addListener. now rewrite Hrs, Hael. }
  rewrite Hs'. split; [reflexivity|]. split; [reflexivity|].
  intros st ls r Hr Hls. unfold fire_readystatechange.
  cbn [listeners with_listeners with_readyState]. rewrite Hls.
  rewrite notify_change_app.
  change (with_readyState r (with_listeners ls st))
    with (with_listeners ls (with_readyState r st)).
  rewrite notify_change_listeners.
  cbn [notify_change].
  rewrite notify_change_readyState. cbn [readyState with_readyState].
  destruct r; [contradiction | |];
    cbn [snd readyFn setTimeout timers with_timers with_listeners listeners];
    (split; [reflexivity|]); rewrite notify_change_keeps_listeners;
    exact Hls.
Qed.

Lemma legacy_ready_runs_per_change_witness :
  let s1 := snd (ready (HVal (VObj Demo.onReady)) [VNum 1]
                   (Boot.boot false Loading false VUndef ∅ 0)) in
  timers (fire_readystatechange Complete (fire_readystatechange Interactive s1))
  = [(HVal (VObj Demo.onReady), [VNum 1]); (HVal (VObj Demo.onReady), [VNum 1])].
Proof.
  intros s1.
  pose proof (legacy_ready_runs_per_change (Boot.boot false Loading false VUndef ∅ 0)
                (HVal (VObj Demo.onReady)) [VNum 1]) as H.
  destruct H as (_ & _ & H); [reflexivity | reflexivity|].
  destruct (H (fire_readystatechange Interactive s1) [] Complete) as [H2 _];
    [discriminate | reflexivity|].
  rewrite H2. reflexivity.
Defined.


(** ** Splitting, trimming, searching *)

Lemma split_dot_cons (c : ascii) (r : string) :
  Ascii.eqb c "."%char = false ->
  exists x xs, split_dot r = x :: xs /\ split_dot (String c r) = String c x :: xs.
Proof.
  intros Hc. cbn [split_dot]. rewrite Hc.
  destruct r as [|c' r']; cbn [split_dot].
  - eexists _, _. split; reflexivity.
  - destruct (Ascii.eqb c' "."%char); [eexists _, _; split; reflexivity|].
    destruct (split_dot r') as [|x xs]; eexists _, _; split; reflexivity.
Qed.

(** X12: splitting at the dots loses nothing and leaves no dot: a string
    path always gives at least one key, no key contains a dot, and the keys
    joined by dots are the string that was split. *)
Theorem split_dot_keys (p : string) :
  split_dot p <> []
  /\ Forall (fun k => has_dot k = false) (split_dot p)
  /\ String.concat "." (split_dot p) = p.
Proof.
  induction p as [|c r (Hne & Hall & Hjoin)]; [repeat split; [discriminate|]|].
  - repeat constructor.
  - destruct (Ascii.eqb c "."%char) eqn:Hc.
    + cbn [split_dot]. rewrite Hc. apply Ascii.eqb_eq in Hc. subst c.
      split; [discriminate|]. split; [constructor; [reflexivity | exact Hall]|].
      destruct (split_dot r) as [|x xs]; [contradiction|].
      cbn [String.concat]. cbn [String.concat] in Hjoin.
      change ("" ++ ?z)%string with z. now rewrite Hjoin.
    + destruct (split_dot_cons c r Hc) as (x & xs & Hr & Hs). rewrite Hs.
      rewrite Hr in Hall, Hjoin.
      split; [discriminate|]. split.
      * inversion Hall as [|? ? Hx Hxs]; subst. constructor; [|exact Hxs].
        cbn [has_dot]. now rewrite Hc.
      * destruct xs as [|y ys]; cbn [String.concat] in *.
        -- now rewrite Hjoin.
        -- rewrite append_cons. now rewrite Hjoin.
Qed.

Lemma drop_leading_space_split (s : string) :
  exists l, s = (l ++ drop_leading_space s)%string /\ all_space l = true.
Proof.
  induction s as [|c r (l & Hl & Hs)]; [exists EmptyString; split; reflexivity|].
  cbn [drop_leading_space]. destruct (is_space c) eqn:Hc.
  - exists (String c l). rewrite append_cons, <- Hl. split; [reflexivity|].
    cbn [all_space]. now rewrite Hc, Hs.
  - exists EmptyString. split; reflexivity.
Qed.

Lemma drop_leading_space_head (s : string) (c : ascii) (t : string) :
  drop_leading_space s = String c t -> is_space c = false.
Proof.
  induction s as [|c0 r IH]; cbn [drop_leading_space]; [discriminate|].
  destruct (is_space c0) eqn:Hc; [exact IH|].
  intros H. injection H as <- _. exact Hc.
Qed.

Lemma drop_trailing_space_split (s : string) :
  exists r, s = (drop_trailing_space s ++ r)%string /\ all_space r = true.
Proof.
  induction s as [|c t (r & Hr & Hs)]; [exists EmptyString; split; reflexivity|].
  cbn [drop_trailing_space]. destruct (all_space (String c t)) eqn:Hall.
  - exists (String c t). split; [reflexivity | exact Hall].
  - exists r. rewrite append_cons, <- Hr. split; [reflexivity | exact Hs].
Qed.

Lemma drop_trailing_space_empty (s : string) :
  drop_trailing_space s = EmptyString <-> all_space s = true.
Proof.
  destruct s as [|c t]; cbn [drop_trailing_space]; [split; reflexivity|].
  destruct (all_space (String c t)); split; try reflexivity; discriminate.
Qed.

Lemma drop_trailing_space_head (s : string) (c : ascii) (t : string) :
  drop_trailing_space s = String c t -> exists t', s = String c t'.
Proof.
  destruct s as [|c0 r]; cbn [drop_trailing_space]; [discriminate|].
  destruct (all_space (String c0 r)); [discriminate|].
  intros H. injection H as <- _. eauto.
Qed.

Lemma drop_trailing_space_last (s : string) :
  forall (t : string) (c : ascii),
    drop_trailing_space s = (t ++ String c EmptyString)%string ->
    is_space c = false.
Proof.
  induction s as [|c0 r IH]; intros t c; cbn [drop_trailing_space].
  - destruct t; discriminate.
  - destruct (all_space (String c0 r)) eqn:Hall; [destruct t; discriminate|].
    destruct t as [|c1 t].
    + change (EmptyString ++ ?z)%string with z. intros H. injection H as <- Hr.
      apply drop_trailing_space_empty in Hr. cbn [all_space] in Hall.
      rewrite Hr, andb_true_r in Hall. exact Hall.
    + rewrite append_cons. intros H. injection H as _ Hr. now apply (IH t).
Qed.

Lemma all_space_app (a b : string) :
  all_space (a ++ b)%string = all_space a && all_space b.
Proof.
  induction a as [|c a IH]; [reflexivity|].
  rewrite append_cons. cbn [all_space]. now rewrite IH, andb_assoc.
Qed.

Lemma drop_leading_space_id (s : string) :
  (forall c t, s = String c t -> is_space c = false) ->
  drop_leading_space s = s.
Proof.
  destruct s as [|c t]; [reflexivity|]. intros H. cbn [drop_leading_space].
  now rewrite (H c t eq_refl).
Qed.

Lemma drop_trailing_space_id (s : string) :
  (forall t c, s = (t ++ String c EmptyString)%string -> is_space c = false) ->
  drop_trailing_space s = s.
Proof.
  induction s as [|c r IH]; [reflexivity|]. intros H. cbn [drop_trailing_space].
  destruct (all_space (String c r)) eqn:Hall.
  - exfalso. clear IH. revert c H Hall. induction r as [|c1 r IHr]; intros c H Hall.
    + cbn [all_space] in Hall. rewrite andb_true_r in Hall.
      now rewrite (H EmptyString c eq_refl) in Hall.
    + cbn [all_space] in Hall. apply andb_true_iff in Hall as [_ Hall].
      apply (IHr c1); [|exact Hall].
      intros t c' Ht. apply (H (String c t) c'). rewrite append_cons. now rewrite Ht.
  - f_equal. apply IH. intros t c' Ht. apply (H (String c t) c').
    rewrite append_cons. now rewrite Ht.
Qed.

Lemma trim_split (s : string) :
  exists l r, s = (l ++ trim s ++ r)%string
              /\ all_space l = true /\ all_space r = true.
Proof.
  unfold trim. destruct (drop_leading_space_split s) as (l & Hl & Hls).
  destruct (drop_trailing_space_split (drop_leading_space s)) as (r & Hr & Hrs).
  exists l, r. split; [|split; assumption].
  rewrite <- Hr. exact Hl.
Qed.

Lemma trim_head (s : string) (c : ascii) (t : string) :
  trim s = String c t -> is_space c = false.
Proof.
  unfold trim. intros H. destruct (drop_trailing_space_head _ _ _ H) as [t' Ht'].
  now apply (drop_leading_space_head s c t').
Qed.

Lemma trim_last (s t : string) (c : ascii) :
  trim s = (t ++ String c EmptyString)%string -> is_space c = false.
Proof. unfold trim. apply drop_trailing_space_last. Qed.

(** X13: [trim] removes white space at the two ends and nothing else: the
    string is white space, then the result, then white space, and the result
    neither begins nor ends with a white-space character. *)
Theorem trim_strips_both_ends (s : string) :
  (exists l r, s = (l ++ trim s ++ r)%string
               /\ all_space l = true /\ all_space r = true)
  /\ (forall c t, trim s = String c t -> is_space c = false)
  /\ (forall t c, trim s = (t ++ String c EmptyString)%string -> is_space c = false).
Proof.
  split; [apply trim_split|]. split.
  - intros c t. apply trim_head.
  - intros t c. apply trim_last.
Qed.

(** X14: [trim] is idempotent, and it gives the empty string exactly for the
    strings made of white space only. *)
Theorem trim_idempotent (s : string) :
  trim (trim s) = trim s
  /\ (trim s = EmptyString <-> all_space s = true).
Proof.
  split.
  - unfold trim at 1.
    rewrite (drop_leading_space_id (trim s)) by (intros c t; apply trim_head).
    apply drop_trailing_space_id. intros t c. apply trim_last.
  - destruct (trim_split s) as (l & r & Hs & Hl & Hr). split.
    + intros He. rewrite Hs, He. rewrite !all_space_app. now rewrite Hl, Hr.
    + intros Hall. unfold trim. apply drop_trailing_space_empty.
      destruct (drop_leading_space_split s) as (l' & Hl' & _).
      rewrite Hl' in Hall. rewrite all_space_app in Hall.
      now apply andb_true_iff in Hall as [_ Hall].
Qed.

Example trim_examples :
  trim "  a b  " = "a b" /\ trim "   " = "" /\ trim "" = "" /\ trim "x" = "x".
Proof. repeat split; reflexivity. Qed.










Example parseCamelCase_examples :
  parseCamelCase "fooBarBaz" = ["foo"; "bar"; "baz"]
  /\ parseCamelCase "FooBar" = ["foo"; "bar"]
  /\ parseCamelCase "ABC" = ["a"; "b"; "c"]
  /\ parseCamelCase "" = [""].
Proof. repeat split; reflexivity. Qed.

Lemma strict_equal_NaN (x : val) : strict_equal x VNaN = false.
Proof. now destruct x. Qed.

Lemma indexOf_from_spec (array : list val) (target : val) :
  forall i : Z,
    (indexOf_from i array target = (-1)%Z
     /\ Forall (fun x => strict_equal x target = false) array)
    \/ (exists (n : nat) (x : val),
          indexOf_from i array target = (i + Z.of_nat n)%Z
          /\ array !! n = Some x /\ strict_equal x target = true
          /\ Forall (fun y => strict_equal y target = false) (take n array))
    \/ (i < 0)%Z.
Proof.
  induction array as [|x rest IH]; intros i; cbn [indexOf_from].
  - left. split; [reflexivity | constructor].
  - destruct (Z_lt_dec i 0) as [Hneg|Hpos]; [right; right; exact Hneg|].
    destruct (strict_equal x target) eqn:Hx.
    + right. left. exists 0%nat, x. rewrite Z.add_0_r.
      repeat split; [exact Hx | constructor].
    + destruct (IH (i + 1)%Z) as [[Hm Hall]|[(n & y & Hi & Hn & Hy & Hbefore)|Hneg]].
      * left. split; [exact Hm | now constructor].
      * right. left. exists (S n), y. repeat split; [|exact Hn | exact Hy |].
        -- rewrite Hi. lia.
        -- cbn [take]. now constructor.
      * lia.
Qed.

(** X16: [indexOf] gives the place of the first element that is strictly
    equal to the target: either it returns -1 and no element equals the
    target, or it returns an index within the array whose element equals the
    target and before which no element does. *)
Theorem indexOf_first_occurrence (array : list val) (target : val) :
  (indexOf array target = (-1)%Z
   /\ Forall (fun x => strict_equal x target = false) array)
  \/ (exists (n : nat) (x : val),
        indexOf array target = Z.of_nat n
        /\ (n < length array)%nat
        /\ array !! n = Some x /\ strict_equal x target = true
        /\ Forall (fun y => strict_equal y target = false) (take n array)).
Proof.
  unfold indexOf.
  destruct (indexOf_from_spec array target 0) as [H|[(n & x & Hi & Hn & Hx & Hb)|H]];
    [left; exact H | | lia].
  right. exists n, x. repeat split; try assumption.
  eapply lookup_lt_Some. exact Hn.
Qed.

(** X17: NaN is never found by [indexOf], not even in an array that holds
    it, since the comparison is [===]. *)
Theorem indexOf_NaN (array : list val) : indexOf array VNaN = (-1)%Z.
Proof.
  unfold indexOf. generalize 0%Z. induction array as [|x rest IH]; intros i;
    cbn [indexOf_from]; [reflexivity|].
  rewrite strict_equal_NaN. apply IH.
Qed.

Example indexOf_examples :
  indexOf [VNum 1; VStr "a"; VNum 1] (VNum 1) = 0%Z
  /\ indexOf [VNum 1; VStr "a"; VNum 1] (VStr "a") = 1%Z
  /\ indexOf [VNum 1; VStr "1"] (VStr "2") = (-1)%Z
  /\ indexOf [VNaN] VNaN = (-1)%Z
  /\ indexOf [] VUndef = (-1)%Z.
Proof. repeat split; reflexivity. Qed.

(** ** [extend] *)


Lemma put_prop_other_object (h : gmap loc obj) (l l' : loc) (k : string) (v : val) :
  l' <> l -> put_prop h l k v !! l' = h !! l'.
Proof.
  intros Hne. unfold put_prop. destruct (h !! l); [|reflexivity].
  now rewrite lookup_insert_ne.
Qed.










(** ** Round trip of [set] and [get] *)

Lemma wf_lookup (h : gmap loc obj) (l : loc) (o : obj) :
  wf_heap h -> h !! l = Some o ->
  chain_ok h (protos o) = true
  /\ forall k v, props o !! k = Some v -> live h v = true.
Proof.
  intros Hwf Ho. destruct (map_Forall_lookup_1 _ _ _ _ Hwf Ho) as [Hc Hp].
  split; [exact Hc|]. intros k v Hv. exact (map_Forall_lookup_1 _ _ _ _ Hp Hv).
Qed.

Lemma chain_ok_suffix (h : gmap loc obj) (pre post : list loc) (q : loc) :
  chain_ok h (pre ++ q :: post) = true ->
  exists oq, h !! q = Some oq /\ protos oq = post.
Proof.
  induction pre as [|x pre IH]; cbn [app chain_ok].
  - destruct (h !! q) as [oq|]; [|discriminate].
    intros [Hp _]%andb_true_iff. apply bool_decide_eq_true_1 in Hp. eauto.
  - destruct (h !! x); [|discriminate]. intros [_ H]%andb_true_iff. now apply IH.
Qed.

Lemma chain_ok_live (h : gmap loc obj) (ps : list loc) (q : loc) :
  chain_ok h ps = true -> q ∈ ps -> is_Some (h !! q).
Proof.
  intros Hok Hin. apply list_elem_of_split in Hin as (pre & post & ->).
  destruct (chain_ok_suffix _ _ _ _ Hok) as (oq & Hq & _). eauto.
Qed.

(** In a well-formed heap what follows an object on a chain is that object's
    own chain. *)
Lemma chain_split (h : gmap loc obj) (l q : loc) (pre post : list loc) :
  wf_heap h -> chain h l = (pre ++ q :: post)%list -> chain h q = q :: post.
Proof.
  intros Hwf. unfold chain at 1. destruct pre as [|x pre]; cbn [app].
  - intros H. injection H as <- Hpost. unfold chain. now rewrite Hpost.
  - intros H. injection H as <- Hps.
    destruct (h !! l) as [o|] eqn:Ho; [|now destruct pre].
    destruct (wf_lookup h l o Hwf Ho) as [Hc _]. rewrite Hps in Hc.
    destruct (chain_ok_suffix _ _ _ _ Hc) as (oq & Hq & Hpq).
    unfold chain. now rewrite Hq, Hpq.
Qed.

Lemma chain_put (h : gmap loc obj) (q l : loc) (k : string) (v : val) :
  chain (put_prop h q k v) l = chain h l.
Proof.
  unfold chain, put_prop. destruct (h !! q) as [oq|] eqn:Hq; [|reflexivity].
  destruct (decide (q = l)) as [<-|Hne].
  - now rewrite lookup_insert_eq, Hq.
  - now rewrite lookup_insert_ne.
Qed.

Lemma find_in_put_elsewhere (h : gmap loc obj) (q : loc) (k k' : string) (v : val)
  (ls : list loc) :
  q ∉ ls -> find_in (put_prop h q k v) ls k' = find_in h ls k'.
Proof.
  induction ls as [|x ls IH]; intros Hq; [reflexivity|].
  cbn [find_in]. rewrite IH by (intros ?; apply Hq; now right).
  rewrite own_prop_put_other; [reflexivity|]. left. intros ->. apply Hq. now left.
Qed.

Lemma find_in_put_found (h : gmap loc obj) (q : loc) (k k' : string) (v m : val)
  (ls : list loc) :
  (forall pre post, ls = (pre ++ q :: post)%list -> find_in h (q :: post) k' = None) ->
  find_in h ls k = Some m ->
  find_in (put_prop h q k' v) ls k = Some m.
Proof.
  induction ls as [|x ls IH]; intros Hsuf Hfind; [discriminate|].
  cbn [find_in] in *.
  destruct (decide (x = q /\ k = k')) as [[-> ->]|Hne].
  - pose proof (Hsuf [] ls eq_refl) as Hnone. cbn [find_in] in Hnone.
    rewrite Hnone in Hfind. discriminate.
  - rewrite own_prop_put_other
      by (destruct (decide (q = x)) as [->|]; [right; intros ->; now apply Hne | now left]).
    destruct (own_prop h x k); [exact Hfind|].
    apply IH; [|exact Hfind].
    intros pre post ->. apply (Hsuf (x :: pre) post). reflexivity.
Qed.

Lemma stable_refl (h : gmap loc obj) : stable h h.
Proof. split; auto. Qed.

Lemma stable_trans (h1 h2 h3 : gmap loc obj) :
  stable h1 h2 -> stable h2 h3 -> stable h1 h3.
Proof. intros [A1 B1] [A2 B2]. split; auto. Qed.

(** An assignment made because the key was absent makes no lookup find
    something else. *)
Lemma stable_put (h : gmap loc obj) (q : loc) (k : string) (v : val) :
  wf_heap h -> find_in h (chain h q) k = None -> stable h (put_prop h q k v).
Proof.
  intros Hwf Habs. split.
  - intros l k0 m Hfind. rewrite chain_put.
    apply find_in_put_found; [|exact Hfind].
    intros pre post Hsplit. now rewrite <- (chain_split h l q pre post Hwf Hsplit).
  - intros l. apply put_prop_live.
Qed.

Lemma chain_alloc (h : gmap loc obj) (o : obj) (l : loc) :
  is_Some (h !! l) -> chain (<[fresh (dom h) := o]> h) l = chain h l.
Proof.
  intros Hl. unfold chain. rewrite lookup_insert_ne; [reflexivity|].
  intros <-. rewrite fresh_not_in_heap in Hl. now destruct Hl.
Qed.

Lemma find_in_some_live (h : gmap loc obj) (l : loc) (k : string) (m : val) :
  find_in h (chain h l) k = Some m -> is_Some (h !! l).
Proof.
  unfold chain. destruct (h !! l) eqn:Hl; [eauto|].
  cbn [find_in]. unfold own_prop. now rewrite Hl.
Qed.

Lemma stable_alloc (h : gmap loc obj) (ps : list loc) :
  stable h (<[fresh (dom h) := Obj ps ∅ false]> h).
Proof.
  split.
  - intros l k m Hfind.
    rewrite chain_alloc by (eapply find_in_some_live; exact Hfind).
    now rewrite find_in_alloc.
  - intros l Hl. rewrite lookup_insert_ne; [exact Hl|].
    intros <-. rewrite fresh_not_in_heap in Hl. now destruct Hl.
Qed.

Lemma put_prop_protos (h : gmap loc obj) (q x : loc) (k : string) (v : val) :
  (protos <$> put_prop h q k v !! x) = (protos <$> h !! x).
Proof.
  unfold put_prop. destruct (h !! q) as [oq|] eqn:Hq; [|reflexivity].
  destruct (decide (q = x)) as [<-|Hne].
  - now rewrite lookup_insert_eq, Hq.
  - now rewrite lookup_insert_ne.
Qed.

Lemma chain_ok_put (h : gmap loc obj) (q : loc) (k : string) (v : val)
  (ps : list loc) :
  chain_ok (put_prop h q k v) ps = chain_ok h ps.
Proof.
  induction ps as [|x ps IH]; [reflexivity|]. cbn [chain_ok]. rewrite IH.
  pose proof (put_prop_protos h q x k v) as Hp.
  destruct (put_prop h q k v !! x) as [o'|], (h !! x) as [o|];
    cbn in Hp; try discriminate; [|reflexivity].
  injection Hp as ->. reflexivity.
Qed.

Lemma live_put (h : gmap loc obj) (q : loc) (k : string) (v x : val) :
  live h x = true -> live (put_prop h q k v) x = true.
Proof.
  destruct x; try reflexivity. cbn [live].
  intros H%bool_decide_eq_true_1. apply bool_decide_eq_true_2.
  now apply put_prop_live.
Qed.

Lemma wf_obj_put (h : gmap loc obj) (q : loc) (k : string) (v : val) (o : obj) :
  wf_obj h o -> wf_obj (put_prop h q k v) o.
Proof.
  intros [Hc Hp]. split; [now rewrite chain_ok_put|].
  eapply map_Forall_impl; [exact Hp|]. intros k' x. apply live_put.
Qed.

Lemma wf_put (h : gmap loc obj) (q : loc) (k : string) (v : val) :
  wf_heap h -> live h v = true -> wf_heap (put_prop h q k v).
Proof.
  intros Hwf Hv.
  assert (Hall : map_Forall (fun _ o => wf_obj (put_prop h q k v) o) h).
  { eapply map_Forall_impl; [exact Hwf|]. intros l o. apply wf_obj_put. }
  unfold wf_heap. unfold put_prop at 2.
  destruct (h !! q) as [oq|] eqn:Hq; [|exact Hall].
  apply map_Forall_insert_2; [|exact Hall].
  destruct (map_Forall_lookup_1 _ _ _ _ Hall Hq) as [Hc Hp].
  split; [exact Hc|]. cbn [props].
  apply map_Forall_insert_2; [now apply live_put | exact Hp].
Qed.

Lemma chain_ok_alloc (h : gmap loc obj) (o : obj) (ps : list loc) :
  chain_ok h ps = true -> chain_ok (<[fresh (dom h) := o]> h) ps = true.
Proof.
  induction ps as [|x ps IH]; [reflexivity|]. cbn [chain_ok].
  destruct (h !! x) as [ox|] eqn:Hx; [|discriminate].
  intros [Hp Hrest]%andb_true_iff.
  rewrite lookup_insert_ne by (intros <-; now rewrite fresh_not_in_heap in Hx).
  rewrite Hx, Hp. now apply IH.
Qed.

Lemma live_alloc (h : gmap loc obj) (o : obj) (x : val) :
  live h x = true -> live (<[fresh (dom h) := o]> h) x = true.
Proof.
  destruct x; try reflexivity. cbn [live].
  intros H%bool_decide_eq_true_1. apply bool_decide_eq_true_2.
  rewrite lookup_insert_ne; [exact H|].
  intros <-. rewrite fresh_not_in_heap in H. now destruct H.
Qed.

Lemma wf_alloc (h : gmap loc obj) (op : loc) :
  wf_heap h -> is_Some (h !! op) ->
  wf_heap (<[fresh (dom h) := Obj (chain h op) ∅ false]> h).
Proof.
  intros Hwf [oop Hop].
  apply map_Forall_insert_2.
  - split.
    + cbn [protos]. apply chain_ok_alloc. unfold chain. rewrite Hop.
      cbn [chain_ok]. rewrite Hop. rewrite bool_decide_eq_true_2 by reflexivity.
      apply (wf_lookup h op oop Hwf Hop).
    + cbn [props]. apply map_Forall_empty.
  - eapply map_Forall_impl; [exact Hwf|]. intros l o [Hc Hp]. split.
    + now apply chain_ok_alloc.
    + eapply map_Forall_impl; [exact Hp|]. intros k x. apply live_alloc.
Qed.

Lemma find_in_live (h : gmap loc obj) (ls : list loc) (k : string) (m : val) :
  wf_heap h -> find_in h ls k = Some m -> live h m = true.
Proof.
  intros Hwf. induction ls as [|x ls IH]; [discriminate|].
  cbn [find_in]. destruct (own_prop h x k) as [v|] eqn:Hown; [|exact IH].
  intros H. injection H as <-. unfold own_prop in Hown.
  destruct (h !! x) as [o|] eqn:Hx; [|discriminate].
  now apply (wf_lookup h x o Hwf Hx) in Hown.
Qed.

Lemma live_stable (h h1 : gmap loc obj) (x : val) :
  stable h h1 -> live h x = true -> live h1 x = true.
Proof.
  intros [_ Hl]. destruct x; try reflexivity. cbn [live].
  intros H%bool_decide_eq_true_1. apply bool_decide_eq_true_2. now apply Hl.
Qed.

(** The chain of [Object.prototype] holds existing objects only. *)
Lemma chain_members_live (h : gmap loc obj) (l q : loc) :
  wf_heap h -> is_Some (h !! l) -> q ∈ chain h l -> is_Some (h !! q).
Proof.
  intros Hwf [o Ho]. unfold chain. rewrite Ho.
  intros [->|Hin]%elem_of_cons; [eauto|].
  eapply chain_ok_live; [apply (wf_lookup h l o Hwf Ho) | exact Hin].
Qed.

(** The two creating steps of the walk. *)
Lemma walk_create_last (s : state) (l : loc) (key : string) (V : val) :
  find_in (heap s) (chain (heap s) l) key = None ->
  is_Some (heap s !! l) ->
  walk (VObj l) [key] V true s
  = (Ok V, with_heap (put_prop (heap s) l key V) s).
Proof.
  intros Habs Hlive. cbn [walk].
  unfold bind, in_operand, js_has, js_put, js_get, ret, has_property, get_prop.
  cbv beta iota. rewrite Habs. cbn [negb andb heap with_heap]. cbv beta iota.
  cbn [heap with_heap].
  now rewrite (own_prop_in_chain _ _ _ _ (own_prop_put_same (heap s) l key V Hlive)).
Qed.

Lemma walk_create_next (s : state) (l : loc) (key k2 : string)
  (rest : list string) (V : val) :
  find_in (heap s) (chain (heap s) l) key = None ->
  is_Some (heap s !! l) ->
  walk (VObj l) (key :: k2 :: rest) V true s
  = walk (VObj (fresh (dom (heap s)))) (k2 :: rest) V true (after_create s l key).
Proof.
  intros Habs Hlive.
  change (walk (VObj l) (key :: k2 :: rest) V true s)
    with ((let* o := in_operand (VObj l) in
           let* found := js_has o key in
           let* exists_ :=
             (if negb found && true
              then (let* v := new_object in js_put o key v ;; ret true)
              else ret found) in
           if exists_
           then (let* object' := js_get o key in walk object' (k2 :: rest) V true)
           else ret V) s).
  unfold bind, in_operand, js_has, js_put, js_get, ret, new_object, has_property,
    get_prop.
  cbv beta iota. rewrite Habs. cbn [negb andb heap with_heap]. cbv beta iota.
  cbn [heap with_heap].
  assert (Hl' : is_Some (<[fresh (dom (heap s)) :=
                            Obj (chain (heap s) (object_proto s)) ∅ false]> (heap s) !! l)).
  { rewrite lookup_insert_ne; [exact Hlive|].
    intros <-. rewrite fresh_not_in_heap in Hlive. now destruct Hlive. }
  rewrite (own_prop_in_chain _ _ _ _
             (own_prop_put_same _ l key (VObj (fresh (dom (heap s)))) Hl')).
  reflexivity.
Qed.

Lemma has_property_after_create (s : state) (l : loc) (key k : string) :
  wf_state s ->
  l ∉ chain (heap s) (object_proto s) ->
  chain (heap (after_create s l key)) (object_proto s)
  = chain (heap s) (object_proto s)
  /\ find_in (heap (after_create s l key)) (chain (heap s) (object_proto s)) k
     = find_in (heap s) (chain (heap s) (object_proto s)) k.
Proof.
  intros [Hwf Hop] Hl. unfold after_create. cbn [heap with_heap]. split.
  - rewrite chain_put. now apply chain_alloc.
  - rewrite find_in_put_elsewhere by exact Hl. apply find_in_alloc.
Qed.

Lemma after_create_wf (s : state) (l : loc) (key : string) :
  wf_state s ->
  is_Some (heap s !! l) ->
  find_in (heap s) (chain (heap s) l) key = None ->
  wf_state (after_create s l key)
  /\ stable (heap s) (heap (after_create s l key))
  /\ find_in (heap (after_create s l key)) (chain (heap (after_create s l key)) l) key
     = Some (VObj (fresh (dom (heap s))))
  /\ heap (after_create s l key) !! fresh (dom (heap s))
     = Some (Obj (chain (heap s) (object_proto s)) ∅ false).
Proof.
  intros [Hwf Hop] Hlive Habs. unfold after_create. cbn [heap with_heap object_proto].
  set (o' := fresh (dom (heap s))).
  set (h1 := <[o' := Obj (chain (heap s) (object_proto s)) ∅ false]> (heap s)).
  assert (Hne : l <> o').
  { intros ->. subst o'. rewrite fresh_not_in_heap in Hlive. now destruct Hlive. }
  assert (Hwf1 : wf_heap h1) by (subst h1 o'; now apply wf_alloc).
  assert (Hst1 : stable (heap s) h1) by (subst h1 o'; apply stable_alloc).
  assert (Hlive1 : is_Some (h1 !! l)) by (now apply Hst1).
  assert (Habs1 : find_in h1 (chain h1 l) key = None).
  { subst h1 o'. rewrite chain_alloc by exact Hlive. now rewrite find_in_alloc. }
  assert (Ho' : live h1 (VObj o') = true).
  { cbn [live]. apply bool_decide_eq_true_2. subst h1. rewrite lookup_insert_eq. eauto. }
  split; [split|split; [|split]].
  - now apply wf_put.
  - apply put_prop_live. now apply Hst1.
  - eapply stable_trans; [exact Hst1|]. now apply stable_put.
  - rewrite chain_put. unfold chain at 1. destruct Hlive1 as [o1 Ho1]. rewrite Ho1.
    cbn [find_in]. now rewrite (own_prop_put_same h1 l key (VObj o') ltac:(eauto)).
  - rewrite put_prop_other_object by (intros E; apply Hne; now rewrite E).
    subst h1. apply lookup_insert_eq.
Qed.

Lemma forallb_same {A} (f g : A -> bool) (l : list A) :
  (forall x, f x = g x) -> forallb f l = forallb g l.
Proof.
  intros H. induction l as [|x l IH]; [reflexivity|]. cbn [forallb].
  now rewrite H, IH.
Qed.

(** From an object that has not the first key, the walk creates the whole
    path and stores the value at its end. *)
Lemma walk_creates (rest : list string) :
  forall (l : loc) (key : string) (V : val) (s : state),
    wf_state s ->
    is_Some (heap s !! l) ->
    live (heap s) V = true ->
    find_in (heap s) (chain (heap s) l) key = None ->
    match rest with
    | [] => true
    | _ :: _ =>
        negb (bool_decide (l ∈ chain (heap s) (object_proto s)))
        && forallb (fun k => negb (has_property (heap s) (object_proto s) k)) rest
    end = true ->
    exists s1,
      walk (VObj l) (key :: rest) V true s = (Ok V, s1)
      /\ resolve (heap s1) (VObj l) (key :: rest) = Some V
      /\ wf_state s1
      /\ stable (heap s) (heap s1)
      /\ object_proto s1 = object_proto s.
Proof.
  induction rest as [|k2 rest IH]; intros l key V s Hwf Hlive HV Habs Hrest.
  - exists (with_heap (put_prop (heap s) l key V) s).
    split; [now apply walk_create_last|]. cbn [heap with_heap resolve].
    destruct Hwf as [Hwf Hop]. split; [|split; [split|split]].
    + rewrite chain_put. unfold chain. destruct Hlive as [o Ho]. rewrite Ho.
      cbn [find_in]. now rewrite (own_prop_put_same (heap s) l key V ltac:(eauto)).
    + now apply wf_put.
    + cbn [object_proto with_heap]. now apply put_prop_live.
    + now apply stable_put.
    + reflexivity.
  - apply andb_true_iff in Hrest as [Hl Hkeys].
    apply negb_true_iff, bool_decide_eq_false_1 in Hl.
    cbn [forallb] in Hkeys. apply andb_true_iff in Hkeys as [Hk2 Hkeys].
    apply negb_true_iff in Hk2.
    set (o' := fresh (dom (heap s))).
    set (s2 := after_create s l key).
    destruct (after_create_wf s l key Hwf Hlive Habs) as (Hwf2 & Hst2 & Hfound & Ho').
    fold s2 in Hwf2, Hst2, Hfound, Ho'. fold o' in Hfound, Ho'.
    assert (Hop2 : object_proto s2 = object_proto s) by reflexivity.
    assert (Hchain_op : chain (heap s2) (object_proto s) = chain (heap s) (object_proto s))
      by (apply (has_property_after_create s l key key Hwf Hl)).
    assert (Hfind_op : forall k, find_in (heap s2) (chain (heap s) (object_proto s)) k
                                 = find_in (heap s) (chain (heap s) (object_proto s)) k)
      by (intros k; apply (has_property_after_create s l key k Hwf Hl)).
    assert (Hhas : forall k, has_property (heap s2) (object_proto s) k
                             = has_property (heap s) (object_proto s) k).
    { intros k. unfold has_property. now rewrite Hchain_op, Hfind_op. }
    assert (Hchain_o' : chain (heap s2) o' = o' :: chain (heap s) (object_proto s)).
    { unfold chain at 1. now rewrite Ho'. }
    assert (Hfresh_out : o' ∉ chain (heap s) (object_proto s)).
    { intros Hin. destruct Hwf as [Hwf Hop].
      pose proof (chain_members_live _ _ _ Hwf Hop Hin) as Hx.
      subst o'. rewrite fresh_not_in_heap in Hx. now destruct Hx. }
    destruct (IH o' k2 V s2) as (s1 & Hwalk & Hres & Hwf1 & Hst1 & Hop1).
    + exact Hwf2.
    + rewrite Ho'. eauto.
    + eapply live_stable; [exact Hst2 | exact HV].
    + rewrite Hchain_o'. cbn [find_in]. unfold own_prop. rewrite Ho'.
      cbn [props]. rewrite lookup_empty. rewrite Hfind_op.
      unfold has_property in Hk2.
      destruct (find_in (heap s) (chain (heap s) (object_proto s)) k2);
        [discriminate | reflexivity].
    + destruct rest as [|k3 rest']; [reflexivity|].
      rewrite Hop2, Hchain_op.
      rewrite bool_decide_eq_false_2 by exact Hfresh_out. cbn [negb andb].
      rewrite (forallb_same _ (fun k => negb (has_property (heap s) (object_proto s) k)));
        [exact Hkeys|]. intros k. now rewrite Hhas.
    + exists s1. split; [|split; [|split; [|split]]].
      * rewrite (walk_create_next s l key k2 rest V Habs Hlive). exact Hwalk.
      * change (resolve (heap s1) (VObj l) (key :: k2 :: rest))
          with (match find_in (heap s1) (chain (heap s1) l) key with
                | Some m => resolve (heap s1) m (k2 :: rest)
                | None => None
                end).
        rewrite (proj1 Hst1 l key _ Hfound). exact Hres.
      * exact Hwf1.
      * eapply stable_trans; [exact Hst2 | exact Hst1].
      * now rewrite Hop1.
Qed.

Lemma walk_round_trip (keys : list string) :
  forall (object V : val) (s : state),
    wf_state s ->
    live (heap s) object = true ->
    live (heap s) V = true ->
    creatable (heap s) (object_proto s) object keys = true ->
    exists s1,
      walk object keys V true s = (Ok V, s1)
      /\ resolve (heap s1) object keys = Some V
      /\ wf_state s1
      /\ stable (heap s) (heap s1)
      /\ object_proto s1 = object_proto s.
Proof.
  induction keys as [|key rest IH]; intros object V s Hwf Hobj HV Hcre;
    [discriminate|].
  cbn [creatable] in Hcre. destruct object as [| | | | | |l]; try discriminate.
  cbn [live] in Hobj. apply bool_decide_eq_true_1 in Hobj.
  destruct (find_in (heap s) (chain (heap s) l) key) as [m|] eqn:Hfind.
  - destruct (IH m V s Hwf) as (s1 & Hwalk & Hres & Hwf1 & Hst1 & Hop1);
      [eapply find_in_live; [apply Hwf | exact Hfind] | exact HV | exact Hcre|].
    exists s1. split; [|split; [|split; [|split]]]; try assumption.
    + now rewrite (walk_found _ _ _ _ _ _ _ Hfind).
    + cbn [resolve]. now rewrite (proj1 Hst1 l key m Hfind).
  - now apply walk_creates.
Qed.

(** X21: the round trip of [set] and [get] on a path that [set] creates.
    In a well-formed heap, when the path is missing (the walk comes through
    objects to one that has not the next key) and the keys after the missing
    one are not names of members of [Object.prototype], [set] returns the
    value and the [get] of the same path that follows returns it too,
    whatever the default. *)
Theorem set_then_get (s : state) (this : val) (P : jspath) (V D : val) :
  wf_state s ->
  live (heap s) this = true ->
  live (heap s) V = true ->
  creatable (heap s) (object_proto s) this (path_keys P) = true ->
  exists s1,
    set this P V s = (Ok V, s1)
    /\ get this P D s1 = (Ok V, s1).
Proof.
  intros Hwf Hthis HV Hcre.
  destruct (walk_round_trip (path_keys P) this V s Hwf Hthis HV Hcre)
    as (s1 & Hwalk & Hres & _).
  exists s1. split; [exact Hwalk|].
  unfold get, _getOrSet. now apply walk_resolved.
Qed.

Lemma wf_started : wf_state Demo.started.
Proof.
  split.
  - apply (bool_decide_unpack _). vm_compute. exact I.
  - vm_compute. eauto.
Qed.

Lemma set_then_get_witness :
  exists s1,
    set (VObj Demo.app) (PathStr "profile.address[0].city") (VStr "Brno") Demo.started
    = (Ok (VStr "Brno"), s1)
    /\ get (VObj Demo.app) (PathStr "profile.address[0].city") VUndef s1
       = (Ok (VStr "Brno"), s1).
Proof.
  apply (set_then_get Demo.started (VObj Demo.app)
           (PathStr "profile.address[0].city") (VStr "Brno") VUndef).
  - exact wf_started.
  - vm_compute. reflexivity.
  - reflexivity.
  - vm_compute. reflexivity.
Defined.

(** The condition on the later keys is needed: an intermediate object made
    by [set] inherits the members of [Object.prototype]. *)
Example set_through_inherited_member :
  let s1 := snd (set (VObj Demo.app) (PathStr "a.constructor") (VNum 5) Demo.started) in
  fst (set (VObj Demo.app) (PathStr "a.constructor") (VNum 5) Demo.started)
  = Ok (VObj 100%positive)
  /\ fst (get (VObj Demo.app) (PathStr "a.constructor") VUndef s1)
     = Ok (VObj 100%positive).
Proof. vm_compute. split; reflexivity. Qed.

(** ** What a construction leaves alone *)

Lemma frame_bind {A B} (R : state -> state -> Prop) (m : M A) (f : A -> M B) :
  (forall s1 s2 s3, R s1 s2 -> R s2 s3 -> R s1 s3) ->
  (forall s, R s (snd (m s))) ->
  (forall a s, R s (snd (f a s))) ->
  forall s, R s (snd (bind m f s)).
Proof.
  intros Htrans Hm Hf s. unfold bind. specialize (Hm s).
  destruct (m s) as [[a|e|] s1]; cbn [snd] in *; [|exact Hm..].
  eapply Htrans; [exact Hm | apply Hf].
Qed.

Lemma outside_trans (self : loc) (s1 s2 s3 : state) :
  outside self s1 s2 -> outside self s2 s3 -> outside self s1 s3.
Proof.
  intros (K1 & A1 & B1 & C1 & D1 & E1) (K2 & A2 & B2 & C2 & D2 & E2).
  split; [auto|]. repeat split; congruence.
Qed.

Lemma outside_refl (self : loc) (s : state) : outside self s s.
Proof. split; [auto|]. repeat split. Qed.

Lemma outside_put (self : loc) (k : string) (v : val) (s : state) :
  outside self s (snd (js_put self k v s)).
Proof.
  unfold js_put. cbn [snd]. split; [|repeat split].
  intros l k' x Hne Hx. cbn [heap with_heap].
  rewrite own_prop_put_other; [exact Hx | left; congruence].
Qed.

Lemma outside_ready (self : loc) (h : handler) (a : arglist) (s : state) :
  outside self s (snd (ready h a s)).
Proof.
  unfold ready, bind, ret, readyFn, setTimeout, addListener.
  destruct (readyState s); [destruct (has_addEventListener s)| |];
    cbn [snd]; apply conj; auto; repeat split.
Qed.

Lemma outside_walk (self : loc) (object value : val) (keys : list string)
  (create : bool) (s : state) :
  outside self s (snd (walk object keys value create s)).
Proof.
  destruct (walk_extends keys object value create s) as [Hkeep Hrest].
  split; [intros l k x _; apply Hkeep|]. rewrite Hrest. repeat split.
Qed.

Lemma outside_dispatch (self : loc) (args : arglist) (s : state) :
  outside self s (snd (dispatch self args s)).
Proof.
  unfold dispatch, bind, js_typeof, js_get. cbv beta iota.
  match goal with |- context [String.eqb ?t "string"] => destruct (String.eqb t "string") end.
  - apply outside_walk.
  - match goal with |- context [String.eqb ?t "function"] =>
      destruct (String.eqb t "function") end; [apply outside_ready | apply outside_refl].
Qed.

Lemma outside_each (self : loc) (recur : loc -> arglist -> M val)
  (items : list arglist) :
  (forall item s, outside self s (snd (recur self item s))) ->
  forall (i : nat) (s : state),
    outside self s (snd (each_from i items (fun item _ => recur self item) s)).
Proof.
  intros Hrec. induction items as [|item rest IH]; intros i s; [apply outside_refl|].
  cbn [each_from]. apply (frame_bind (outside self)).
  - apply outside_trans.
  - intros s0. apply Hrec.
  - intros _ s0. apply IH.
Qed.

Lemma outside_App (self : loc) (d : nat) :
  forall (args : arglist) (s : state), outside self s (snd (App d self args s)).
Proof.
  induction d as [|d IH]; intros args s; [apply outside_refl|].
  cbn [App]. unfold App_with.
  apply (frame_bind (outside self)); [apply outside_trans | intros; apply outside_refl|].
  intros ld s0.
  apply (frame_bind (outside self)); [apply outside_trans | intros; apply outside_refl|].
  intros appready s1.
  apply (frame_bind (outside self)); [apply outside_trans | | intros; apply outside_dispatch].
  intros s2. destruct (bool_decide (appready = VBool false)); [|apply outside_refl].
  apply (frame_bind (outside self)); [apply outside_trans | intros; apply outside_refl|].
  intros t s3.
  apply (frame_bind (outside self)); [apply outside_trans | intros; apply outside_put|].
  intros _ s4.
  apply (frame_bind (outside self)); [apply outside_trans | intros; apply outside_put|].
  intros _ s5.
  apply (frame_bind (outside self)); [apply outside_trans | intros; apply outside_refl|].
  intros t0 s6.
  apply (frame_bind (outside self)); [apply outside_trans | |].
  { intros s7. unfold loader_time. destruct ld; apply outside_refl. }
  intros lt s7.
  apply (frame_bind (outside self)); [apply outside_trans | |].
  { intros s8. unfold console_info. cbn [snd]. split; [auto|]. repeat split. }
  intros _ s8.
  apply (frame_bind (outside self)); [apply outside_trans | intros; apply outside_ready|].
  intros _ s9.
  apply (frame_bind (outside self)); [apply outside_trans | |].
  { intros s10. unfold loader_queue. destruct ld; apply outside_refl. }
  intros queue s10. unfold each.
  destruct queue as [|items]; cbn [isArray negb]; [apply outside_refl|].
  apply outside_each. intros item s11. apply IH.
Qed.

(** X22: a construction never writes on any object that existed before it
    but through the store: the own properties of [App.prototype] (the store
    [data], the flags [appready] and [domready], the methods) are what they
    were after [new App(...)], whatever its arguments and whether it returns
    or throws.  So the flag [appready] of the prototype stays [false] and
    the next new object starts unready as well. *)
Theorem construction_keeps_prototype (d : nat) (s : state) (args : arglist)
  (k : string) (x : val) :
  own_prop (heap s) (app_proto s) k = Some x ->
  let s' := snd (new_App d args s) in
  app_proto s' = app_proto s
  /\ own_prop (heap s') (app_proto s') k = Some x
  /\ window s' = window s.
Proof.
  intros Hx s'. subst s'. unfold new_App, bind.
  set (self := fresh (dom (heap s))).
  set (sa := with_heap (<[self := Obj (chain (heap s) (app_proto s)) ∅ false]> (heap s)) s).
  assert (Hne : app_proto s <> self).
  { intros E. unfold own_prop in Hx. rewrite E in Hx. subst self.
    now rewrite fresh_not_in_heap in Hx. }
  assert (Hxa : own_prop (heap sa) (app_proto s) k = Some x)
    by (subst sa self; cbn [heap with_heap]; now apply alloc_keeps).
  pose proof (outside_App self d args sa) as (Hkeep & Hap & _ & Hw & _).
  destruct (App d self args sa) as [[r|e|] s1]; cbn [snd ret] in *;
    (split; [exact Hap|]); rewrite Hap; (split; [now apply Hkeep | exact Hw]).
Qed.

Lemma construction_keeps_prototype_witness :
  own_prop (heap (snd (new_App 2 [VStr "appready"; VBool true] Demo.started)))
    Boot.AppPrototype "appready" = Some (VBool false).
Proof.
  pose proof (construction_keeps_prototype 2 Demo.started
                [VStr "appready"; VBool true] "appready" (VBool false)) as H.
  destruct H as (Hp & H & _); [vm_compute; reflexivity|].
  rewrite Hp in H. exact H.
Defined.

(** ** Reads of missing paths, paths without brackets *)

(** X23: a path that is missing, the walk having met objects only, reads as
    the default value through [get] and as [undefined] through the callable
    (whose keys are looked up under [data], in lower case); nothing is
    created. *)
Theorem missing_path_reads_default (s : state) (this : val) (P : jspath) (D : val)
  (self : loc) (p : string) :
  missing (heap s) this (path_keys P) = true ->
  missing (heap s) (get_prop (heap s) self "data")
    (path_keys (PathStr (toLowerCase p))) = true ->
  get this P D s = (Ok D, s)
  /\ dispatch self [VStr p] s = (Ok VUndef, s).
Proof.
  intros Hm Hd. split.
  - unfold get, _getOrSet. now apply get_missing.
  - rewrite dispatch_string. cbn [nth].
    rewrite bool_decide_eq_true_2 by reflexivity. cbn [negb].
    unfold _getOrSet. now apply get_missing.
Qed.

Lemma missing_path_reads_default_witness :
  get (VObj Demo.app) (PathStr "user.age") (VNum 0) Demo.started
  = (Ok (VNum 0), Demo.started)
  /\ dispatch Demo.app [VStr "User.Age"] Demo.started = (Ok VUndef, Demo.started).
Proof.
  apply (missing_path_reads_default Demo.started (VObj Demo.app)
           (PathStr "user.age") (VNum 0) Demo.app "User.Age");
    vm_compute; reflexivity.
Defined.

Lemma replace_from_no_bracket (p : string) :
  has_bracket p = false -> replace_from 0 p = p.
Proof.
  induction p as [|c r IH]; [reflexivity|].
  cbn [has_bracket]. intros [Hc Hr]%orb_false_iff.
  cbn [replace_from]. unfold match_bracket. rewrite Hc. now rewrite (IH Hr).
Qed.

(** X24: a path written without an opening bracket is not changed by the
    first step of the normalization: its keys are the pieces between its
    dots, a single leading dot left out. *)
Theorem keys_of_plain_path (p : string) :
  has_bracket p = false ->
  path_keys (PathStr p) = split_dot (strip_leading_dot p).
Proof.
  intros H. unfold path_keys, replace_brackets. now rewrite replace_from_no_bracket.
Qed.

Lemma keys_of_plain_path_witness :
  path_keys (PathStr ".user.name") = split_dot "user.name".
Proof. apply (keys_of_plain_path ".user.name"). reflexivity. Defined.

Lemma trim_strips_both_ends_witness :
  exists l r, "  a b  "%string = (l ++ trim "  a b  " ++ r)%string
              /\ all_space l = true /\ all_space r = true.
Proof. apply (trim_strips_both_ends "  a b  "). Defined.

Lemma trim_idempotent_witness : trim (trim "  a b  ") = trim "  a b  ".
Proof. apply (trim_idempotent "  a b  "). Defined.

